(** * data_correct: text normalisation and entity-span resolution

    A shallow embedding of [text_processor.py] and [entity_processor.py].

    Python strings are sequences of Unicode code points, so a string is a
    list of code points ([N]); indices that can be negative ([str.find]
    answers -1) are in [Z].  The two collaborators of [EntityProcessor]
    ([recognize_entities], [correct_entity]) are methods meant to be
    filled in, and may raise: they are the fields of a record and return in
    an error monad. *)

From Stdlib Require Import List ZArith NArith Bool Lia String Ascii.
From Stdlib Require Import Permutation Sorted.
Import ListNotations.

(** ** Strings *)

Definition char := N.
Definition str := list char.
Bind Scope N_scope with char.

(** An ASCII literal as a Python string. *)
Definition py (s : string) : str := map N_of_ascii (list_ascii_of_string s).

Definition len (s : str) : Z := Z.of_nat (List.length s).

Fixpoint str_eqb (a b : str) : bool :=
  match a, b with
  | [], [] => true
  | x :: a', y :: b' => N.eqb x y && str_eqb a' b'
  | _, _ => false
  end.

(** [c in chars], for a one-character [c]. *)
Definition mem (c : char) (chars : str) : bool := existsb (N.eqb c) chars.

(** [text[i:j]] for [0 <= i <= j]. *)
Definition slice (text : str) (i j : nat) : str := firstn (j - i) (skipn i text).

(** [text.startswith(sub)] *)
Fixpoint startswith (text sub : str) {struct sub} : bool :=
  match sub, text with
  | [], _ => true
  | x :: sub', y :: text' => N.eqb x y && startswith text' sub'
  | _ :: _, [] => false
  end.

(** [text.find(sub)]: the lowest index where [sub] occurs, [None] for
    Python's -1.  The empty string is found at 0, also in the empty text. *)
Fixpoint find (text sub : str) : option nat :=
  if startswith text sub then Some 0%nat
  else match text with
       | [] => None
       | _ :: text' => option_map S (find text' sub)
       end.

(** [text.find(sub)] as the integer Python returns. *)
Definition find_z (text sub : str) : Z :=
  match find text sub with
  | Some i => Z.of_nat i
  | None => (-1)%Z
  end.

(** [sub in text] *)
Definition contains (text sub : str) : bool :=
  match find text sub with Some _ => true | None => false end.

(** [text.replace(old, new)] where [old] is one character, the only form
    the source uses. *)
Fixpoint replace (old : char) (new : str) (text : str) : str :=
  match text with
  | [] => []
  | c :: text' => (if N.eqb c old then new else [c]) ++ replace old new text'
  end.

Fixpoint dropwhile (p : char -> bool) (s : str) : str :=
  match s with
  | [] => []
  | c :: s' => if p c then dropwhile p s' else s
  end.

Fixpoint takewhile (p : char -> bool) (s : str) : str :=
  match s with
  | [] => []
  | c :: s' => if p c then c :: takewhile p s' else []
  end.

(** [str.isspace] on one character: the code points CPython's
    [_PyUnicode_IsWhitespace] accepts. *)
Definition isspace (c : char) : bool :=
  ((9 <=? c) && (c <=? 13) || (28 <=? c) && (c <=? 32)
   || (c =? 0x85) || (c =? 0xA0) || (c =? 0x1680)
   || (0x2000 <=? c) && (c <=? 0x200A)
   || (c =? 0x2028) || (c =? 0x2029) || (c =? 0x202F)
   || (c =? 0x205F) || (c =? 0x3000))%N.

(** [text.strip()] *)
Definition strip (text : str) : str :=
  rev (dropwhile isspace (rev (dropwhile isspace text))).

(** ** The Unicode database

    [unicodedata.normalize('NFKC', _)] and [str.lower] are table-driven
    functions of the Python runtime.  The pipeline is written over any
    implementation of the two; what is proved for every [Unicode] holds for
    CPython's. *)
Class Unicode := {
  NFKC : str -> str;
  lower : str -> str
}.

(** ** text_processor.py *)
Module TextProcessor.

Section Normalizer.
Context {U : Unicode}.

Definition fullwidth_to_halfwidth (text : str) : str := NFKC text.

Definition remove_non_breaking_spaces (text : str) : str :=
  replace 0x202F [] (replace 0x2007 [] (replace 0x00A0 [] text)).

Definition to_lower (text : str) : str := lower text.

Definition invisible_chars : str :=
  [0x200b; 0x200c; 0x200d; 0xfeff; 0x202a; 0x202b; 0x202c; 0x202d; 0x202e]%N.

(** The class [[\x00-\x1F\x7F]]. *)
Definition is_ascii_control (c : char) : bool := ((c <=? 0x1F) || (c =? 0x7F))%N.

Definition remove_invisible_chars (text : str) : str :=
  let text := fold_left (fun text ch => replace ch [] text) invisible_chars text in
  filter (fun c => negb (is_ascii_control c)) text.

Definition space_chars : str :=
  [0x3000; 0x00A0;
   0x2000; 0x2001; 0x2002; 0x2003; 0x2004; 0x2005;
   0x2006; 0x2007; 0x2008; 0x2009; 0x200A; 0x202F; 0x205F; 0x2060]%N.

Definition SP : char := 32%N.

Definition normalize_spaces (text : str) : str :=
  fold_left (fun text ch => replace ch [SP] text) space_chars text.

(** [re.sub(r' +', ' ', text)]: of each run of spaces one is kept. *)
Fixpoint collapse_spaces (text : str) : str :=
  match text with
  | [] => []
  | c :: rest =>
      if N.eqb c SP then
        match rest with
        | c' :: _ => if N.eqb c' SP then collapse_spaces rest
                     else c :: collapse_spaces rest
        | [] => [c]
        end
      else c :: collapse_spaces rest
  end.

Definition process (text : str) : str :=
  let text := fullwidth_to_halfwidth text in
  let text := remove_non_breaking_spaces text in
  let text := to_lower text in
  let text := remove_invisible_chars text in
  let text := normalize_spaces text in
  let text := collapse_spaces text in
  strip text.

End Normalizer.

(** *** Regular expressions

    Every pattern the scanner builds has the shape [^? [class]+ $?]. *)
Record pattern := {
  caret : bool;
  class : char -> bool;
  dollar : bool
}.

(** [$] without MULTILINE holds at the end of the string and just before
    a newline that ends the string. *)
Definition at_dollar (rest : str) : bool :=
  match rest with
  | [] => true
  | [c] => N.eqb c 10
  | _ => false
  end.

(** [class+ $?] tried at the head of [s]: the repetition is greedy, and
    gives characters back one at a time until what follows succeeds.
    Answers the matched text. *)
Fixpoint match_plus (p : pattern) (s : str) : option str :=
  match s with
  | [] => None
  | c :: s' =>
      if class p c then
        match match_plus p s' with
        | Some m => Some (c :: m)
        | None => if dollar p && negb (at_dollar s') then None else Some [c]
        end
      else None
  end.

(** The scan of [re.findall]: [skip] counts the characters of the last
    match still to be passed over; elsewhere a match is tried ([^] only at
    position 0) and the scan resumes after it, or one character on if there
    is none.  A match is never empty. *)
Fixpoint scan (p : pattern) (skip : nat) (at_start : bool) (s : str) : list str :=
  match s with
  | [] => []
  | _ :: s' =>
      match skip with
      | S k => scan p k false s'
      | O =>
          match (if caret p && negb at_start then None else match_plus p s) with
          | Some m => m :: scan p (List.length m - 1) false s'
          | None => scan p 0 false s'
          end
      end
  end.

Definition findall (p : pattern) (text : str) : list str := scan p 0 true text.

Definition ascii_letter (c : char) : bool :=
  ((97 <=? c) && (c <=? 122) || (65 <=? c) && (c <=? 90))%N.

Definition ascii_digit (c : char) : bool := ((48 <=? c) && (c <=? 57))%N.

(** The class [[a-zA-Z0-9] + re.escape(custom_chars)]: escaping makes every
    custom character stand for itself. *)
Definition base_chars (custom_chars : str) (c : char) : bool :=
  ascii_letter c || ascii_digit c || mem c custom_chars.

Definition detect_continuous_english (text : str) : list str :=
  findall {| caret := false; class := ascii_letter; dollar := false |} text.

Definition detect_continuous_alphanumeric (text : str) : list str :=
  findall {| caret := false; class := base_chars []; dollar := false |} text.

Definition detect_continuous_custom_chars (text custom_chars : str)
    (start_constraint end_constraint : bool) : list str :=
  let base_chars := base_chars custom_chars in
  let pattern :=
    if start_constraint && end_constraint then
      {| caret := true; class := base_chars; dollar := true |}
    else if start_constraint then
      {| caret := true; class := base_chars; dollar := false |}
    else if end_constraint then
      {| caret := false; class := base_chars; dollar := true |}
    else
      {| caret := false; class := base_chars; dollar := false |} in
  findall pattern text.

(** *** expand_substring *)

(** [r'[' + re.escape(chars) + r']' if chars else None] *)
Definition forbidden_pattern (chars : str) : option (char -> bool) :=
  match chars with
  | [] => None
  | _ => Some (fun c => mem c chars)
  end.

(** [pattern and re.match(pattern, c)] *)
Definition violates (pattern : option (char -> bool)) (c : char) : bool :=
  match pattern with
  | Some f => f c
  | None => false
  end.

(** The leftward loop, from [expanded_start].  [text[expanded_start - 1]]
    is always in range there. *)
Fixpoint expand_left (allowed_chars : char -> bool)
    (forbidden_start_pattern : option (char -> bool))
    (text : str) (expanded_start : nat) : nat :=
  match expanded_start with
  | O => O
  | S i =>
      match nth_error text i with
      | Some prev_char =>
          if allowed_chars prev_char then
            if violates forbidden_start_pattern prev_char then expanded_start
            else expand_left allowed_chars forbidden_start_pattern text i
          else expanded_start
      | None => expanded_start
      end
  end.

(** The rightward loop; [rest] is [text[expanded_end:]]. *)
Fixpoint expand_right (allowed_chars : char -> bool)
    (forbidden_end_pattern : option (char -> bool))
    (rest : str) (expanded_end : nat) : nat :=
  match rest with
  | [] => expanded_end
  | next_char :: rest' =>
      if allowed_chars next_char then
        if violates forbidden_end_pattern next_char then expanded_end
        else expand_right allowed_chars forbidden_end_pattern rest' (S expanded_end)
      else expanded_end
  end.

(** The bounds [(expanded_start, expanded_end)] the two loops reach, when
    [substring] occurs in [text]. *)
Definition expand_bounds (text substring custom_chars
    forbidden_start_chars forbidden_end_chars : str) : option (nat * nat) :=
  match find text substring with
  | None => None
  | Some start_pos =>
      let allowed_chars := base_chars custom_chars in
      let forbidden_start_pattern := forbidden_pattern forbidden_start_chars in
      let forbidden_end_pattern := forbidden_pattern forbidden_end_chars in
      let end_pos := (start_pos + List.length substring)%nat in
      Some (expand_left allowed_chars forbidden_start_pattern text start_pos,
            expand_right allowed_chars forbidden_end_pattern
              (skipn end_pos text) end_pos)
  end.

Definition expand_substring (text substring custom_chars
    forbidden_start_chars forbidden_end_chars : str) : str :=
  match expand_bounds text substring custom_chars
          forbidden_start_chars forbidden_end_chars with
  | None => substring
  | Some (expanded_start, expanded_end) => slice text expanded_start expanded_end
  end.

Definition is_alphanumeric (text : str) : bool :=
  match text with
  | [] => false
  | _ => forallb (base_chars []) text
  end.

End TextProcessor.

(** ** entity_processor.py *)

(** An entity dictionary; ['type'] is optional. *)
Record Span := {
  text : str;
  start_index : Z;
  end_index : Z;
  type : option str
}.

(** Equality of dictionaries, as [==] decides it. *)
Definition span_eqb (a b : Span) : bool :=
  str_eqb (text a) (text b)
  && Z.eqb (start_index a) (start_index b)
  && Z.eqb (end_index a) (end_index b)
  && match type a, type b with
     | Some x, Some y => str_eqb x y
     | None, None => true
     | _, _ => false
     end.

(** A call that returns or raises. *)
Inductive result (E A : Type) : Type :=
| Ok (a : A)
| Raise (e : E).
Arguments Ok {E A} a.
Arguments Raise {E A} e.

Definition bind {E A B} (c : result E A) (k : A -> result E B) : result E B :=
  match c with
  | Ok a => k a
  | Raise e => Raise e
  end.

Notation "x <- c ;; k" := (bind c (fun x => k))
  (at level 61, c at next level, right associativity).

(** A [for] loop that appends one value per element, stopped by the first
    raise. *)
Fixpoint for_each {E A B} (f : A -> result E B) (l : list A) : result E (list B) :=
  match l with
  | [] => Ok []
  | x :: l' => y <- f x ;; ys <- for_each f l' ;; Ok (y :: ys)
  end.

(** The two methods left to implement. *)
Record Collaborators (E : Type) := {
  recognize_entities : str -> result E (list Span);
  correct_entity : str -> str -> Z -> Z -> result E (option Span)
}.
Arguments recognize_entities {E} _ _.
Arguments correct_entity {E} _ _ _ _ _.

Module EntityProcessor.

Definition DETECTED : str := py "DETECTED".

(** The bodies in the source: no entity, no correction. *)
Definition shipped (E : Type) : Collaborators E := {|
  recognize_entities := fun _ => Ok [];
  correct_entity := fun _ _ _ _ => Ok None
|}.

(** [expanded_start < end and expanded_end > start] *)
Definition overlaps (expanded_start expanded_end : Z) (boundary : Z * Z) : bool :=
  let '(start, end_) := boundary in
  (expanded_start <? end_)%Z && (expanded_end >? start)%Z.

Definition expand_entity_without_overlap (query : str) (entity : Span)
    (all_entities : list Span)
    (custom_chars forbidden_start_chars forbidden_end_chars : str) : str :=
  let entity_text := text entity in
  let other_boundaries :=
    map (fun other_entity => (start_index other_entity, end_index other_entity))
      (filter (fun other_entity => negb (span_eqb other_entity entity)) all_entities) in
  let expanded_text :=
    TextProcessor.expand_substring query entity_text custom_chars
      forbidden_start_chars forbidden_end_chars in
  let expanded_start := find_z query expanded_text in
  let expanded_end := (expanded_start + len expanded_text)%Z in
  if existsb (overlaps expanded_start expanded_end) other_boundaries
  then entity_text
  else expanded_text.

Definition detect_potential_entities (query custom_chars : str)
    (start_constraint end_constraint : bool) : list Span :=
  let potential_entities :=
    TextProcessor.detect_continuous_custom_chars query custom_chars
      start_constraint end_constraint in
  map (fun entity_text =>
         let start_index := find_z query entity_text in
         let end_index := (start_index + len entity_text)%Z in
         {| text := entity_text; start_index := start_index;
            end_index := end_index; type := Some DETECTED |})
      potential_entities.

(** [entities.sort(key=lambda x: x['start_index'])]: the sort is stable. *)
Fixpoint insert_by_start (x : Span) (l : list Span) : list Span :=
  match l with
  | [] => [x]
  | y :: l' =>
      if (start_index x <=? start_index y)%Z then x :: l
      else y :: insert_by_start x l'
  end.

Fixpoint sort_by_start (l : list Span) : list Span :=
  match l with
  | [] => []
  | x :: l' => insert_by_start x (sort_by_start l')
  end.

Section Resolver.
Context {U : Unicode} {E : Type} (self : Collaborators E).

Definition preprocess_query (query : str) : str := TextProcessor.process query.

(** The body of the loop over the candidates; both branches of
    [process_query] run the same one. *)
Definition resolve_entity (processed_query : str) (entities : list Span)
    (custom_chars forbidden_start_chars forbidden_end_chars : str)
    (entity : Span) : result E Span :=
  let expanded_text :=
    expand_entity_without_overlap processed_query entity entities
      custom_chars forbidden_start_chars forbidden_end_chars in
  if str_eqb expanded_text (text entity) then Ok entity
  else
    corrected_entity <-
      correct_entity self (text entity) expanded_text
        (start_index entity) (end_index entity) ;;
    match corrected_entity with
    | Some corrected => Ok corrected
    | None => Ok entity
    end.

Definition process_query (query custom_chars forbidden_start_chars
    forbidden_end_chars : str) (start_constraint end_constraint : bool)
    : result E (list Span) :=
  let processed_query := preprocess_query query in
  entities <- recognize_entities self processed_query ;;
  match entities with
  | _ :: _ =>
      let entities := sort_by_start entities in
      for_each (resolve_entity processed_query entities custom_chars
                  forbidden_start_chars forbidden_end_chars) entities
  | [] =>
      let potential_entities :=
        detect_potential_entities processed_query custom_chars
          start_constraint end_constraint in
      for_each (resolve_entity processed_query potential_entities custom_chars
                  forbidden_start_chars forbidden_end_chars) potential_entities
  end.

(** Step 2 alone: the candidates the loop runs over. *)
Definition candidates (processed_query custom_chars : str)
    (start_constraint end_constraint : bool) : result E (list Span) :=
  entities <- recognize_entities self processed_query ;;
  match entities with
  | _ :: _ => Ok (sort_by_start entities)
  | [] => Ok (detect_potential_entities processed_query custom_chars
                start_constraint end_constraint)
  end.

End Resolver.

(** Two spans intersect when their half-open intervals do, by the test
    of [expand_entity_without_overlap]. *)
Definition intersects (a b : Span) : bool :=
  overlaps (start_index a) (end_index a) (start_index b, end_index b).

(** No two spans of the list intersect. *)
Fixpoint overlap_free (l : list Span) : bool :=
  match l with
  | [] => true
  | a :: l' => forallb (fun b => negb (intersects a b)) l' && overlap_free l'
  end.

(** The corrector, where it answers, keeps the boundaries it was given. *)
Definition keeps_interval {E} (self : Collaborators E) : Prop :=
  forall original expanded s e corrected,
    correct_entity self original expanded s e = Ok (Some corrected) ->
    start_index corrected = s /\ end_index corrected = e.

End EntityProcessor.

(** ** An excerpt of the Unicode database

    The normalisation algorithm of UAX #15 (compatibility decomposition,
    canonical ordering, canonical composition) over the rows of
    UnicodeData.txt for: ASCII, the space variants and format characters
    the pipeline names, the fullwidth forms U+FF01..U+FF5E, U+0301
    COMBINING ACUTE ACCENT and U+00E1.  A code point outside these rows is
    taken to have no decomposition, combining class 0 and no composite, so
    the instance stands for CPython's tables on text made of the rows above
    in which U+0301 follows no letter but [a].  It serves the closed
    examples; no theorem quantified over [Unicode] uses it. *)
Module Excerpt.

Definition decomposition (c : char) : str :=
  if ((c =? 0xA0) || (0x2000 <=? c) && (c <=? 0x200A) || (c =? 0x202F)
      || (c =? 0x205F) || (c =? 0x3000))%N then [32%N]
  else if ((0xFF01 <=? c) && (c <=? 0xFF5E))%N then [(c - 0xFEE0)%N]
  else if (c =? 0xE1)%N then [0x61; 0x301]%N
  else [c].

Definition combining_class (c : char) : N :=
  if (c =? 0x301)%N then 230%N else 0%N.

Definition primary_composite (starter c : char) : option char :=
  if ((starter =? 0x61) && (c =? 0x301))%N then Some 0xE1%N else None.

(** Canonical ordering: a mark moves left past the marks of a higher
    class. *)
Fixpoint place_mark (c : char) (rev_out : str) : str :=
  match rev_out with
  | m :: rev_out' =>
      if (combining_class c <? combining_class m)%N
      then m :: place_mark c rev_out'
      else c :: rev_out
  | [] => [c]
  end.

Definition reorder (s : str) : str :=
  rev (fold_left (fun rev_out c =>
                    if (combining_class c =? 0)%N then c :: rev_out
                    else place_mark c rev_out) s []).

(** Canonical composition after the starter [starter], followed so far by
    the marks [marks]. *)
Fixpoint compose_from (starter : char) (marks rest : str) : str :=
  match rest with
  | [] => starter :: marks
  | c :: rest' =>
      let blocked :=
        match rev marks with
        | m :: _ => (combining_class c <=? combining_class m)%N
        | [] => false
        end in
      match (if blocked then None else primary_composite starter c) with
      | Some p => compose_from p marks rest'
      | None =>
          if (combining_class c =? 0)%N
          then starter :: marks ++ compose_from c [] rest'
          else compose_from starter (marks ++ [c]) rest'
      end
  end.

Fixpoint compose (s : str) : str :=
  match s with
  | [] => []
  | c :: rest =>
      if (combining_class c =? 0)%N then compose_from c [] rest
      else c :: compose rest
  end.

Definition nfkc (s : str) : str := compose (reorder (flat_map decomposition s)).

(** ASCII letters are the only cased characters of the excerpt that reach
    [lower] in the pipeline. *)
Definition ascii_lower (s : str) : str :=
  map (fun c => if ((65 <=? c) && (c <=? 90))%N then (c + 32)%N else c) s.

#[export] Instance unicode : Unicode := {| NFKC := nfkc; lower := ascii_lower |}.

End Excerpt.

Import TextProcessor EntityProcessor.

(** ** text_processor.py: the boundary check *)

(** What indexing a string out of range raises. *)
Inductive IndexError : Type := string_index_out_of_range.

(** [text[i]]: a negative index counts from the end. *)
Definition index (text : str) (i : Z) : result IndexError char :=
  let i := if (i <? 0)%Z then (i + len text)%Z else i in
  if (i <? 0)%Z || (len text <=? i)%Z then Raise string_index_out_of_range
  else match nth_error text (Z.to_nat i) with
       | Some c => Ok c
       | None => Raise string_index_out_of_range
       end.

(** [start] and [end] are whatever integers the caller passes; both
    sides are computed before the conjunction. *)
Definition is_substring_surrounded_by_non_custom (text : str) (start end_ : Z)
    (custom_chars : str) : result IndexError bool :=
  let check_chars := TextProcessor.base_chars custom_chars in
  left_ok <- (if (start =? 0)%Z then Ok true
              else c <- index text (start - 1) ;; Ok (negb (check_chars c))) ;;
  right_ok <- (if (end_ =? len text)%Z then Ok true
               else c <- index text end_ ;; Ok (negb (check_chars c))) ;;
  Ok (left_ok && right_ok).

(** ** Notions the statements use *)

(** What the steps up to [normalize_spaces] leave: no invisible
    character, no ASCII control, no space variant. *)
Definition plain (c : char) : Prop :=
  ~ In c invisible_chars /\ is_ascii_control c = false /\ ~ In c space_chars.

(** Nothing to trim on the left. *)
Definition clean_head (l : str) : Prop :=
  match l with
  | [] => True
  | c :: _ => isspace c = false
  end.

(** No two spaces in a row, as a test and as a property. *)
Fixpoint spaced (l : str) : bool :=
  match l with
  | c :: (c' :: _) as rest => negb (N.eqb c SP && N.eqb c' SP) && spaced rest
  | _ => true
  end.

Definition no_double_space (l : str) : Prop :=
  forall pre post, l <> pre ++ SP :: SP :: post.

Definition same_interval (a b : Span) : Prop :=
  start_index a = start_index b /\ end_index a = end_index b.

(** The maximal runs of characters of a class, left to right; [acc] holds
    the run being read, reversed. *)
Fixpoint runs_acc (p : char -> bool) (acc : str) (l : str) : list str :=
  match l with
  | [] => match acc with [] => [] | _ => [rev acc] end
  | c :: l' =>
      if p c then runs_acc p (c :: acc) l'
      else match acc with
           | [] => runs_acc p [] l'
           | _ => rev acc :: runs_acc p [] l'
           end
  end.

Definition maximal_runs (p : char -> bool) (l : str) : list str := runs_acc p [] l.

(** The run that ends where the buffer ends: its longest suffix made of
    characters of the class. *)
Fixpoint end_run (p : char -> bool) (l : str) : str :=
  match l with
  | [] => []
  | _ :: l' => if forallb p l then l else end_run p l'
  end.

(** The buffer without the newline that ends it, when the newline is not
    of the class: where [$] takes the end to be. *)
Fixpoint before_final_newline (p : char -> bool) (l : str) : str :=
  match l with
  | [] => []
  | c :: l' =>
      match l' with
      | [] => if N.eqb c 10 && negb (p 10%N) then [] else [c]
      | _ :: _ => c :: before_final_newline p l'
      end
  end.

(** Sorted by [start_index], ascending. *)
Definition by_start (a b : Span) : Prop := (start_index a <= start_index b)%Z.

(** The characters an expansion may take in: of the class and not
    forbidden at that end. *)
Definition takes (custom_chars forbidden : str) (c : char) : bool :=
  base_chars custom_chars c && negb (mem c forbidden).

(** Inputs of the examples. *)
Definition span_AB : Span :=
  {| text := py "AB"; start_index := 0; end_index := 2; type := None |}.
Definition span_CD : Span :=
  {| text := py "CD"; start_index := 3; end_index := 5; type := None |}.

(** A recognizer with two entities to report, not in order, and a
    corrector that takes the expanded text at the boundaries it is given. *)
Definition CORRECTED : str := py "CORRECTED".
Definition span_42 : Span :=
  {| text := py "42"; start_index := 2; end_index := 4; type := None |}.
Definition span_z : Span :=
  {| text := py "z"; start_index := 7; end_index := 8; type := None |}.
Definition correcting : Collaborators unit := {|
  recognize_entities := fun _ => Ok [span_z; span_42];
  correct_entity := fun _ expanded s e =>
    Ok (Some {| text := expanded; start_index := s; end_index := e;
                type := Some CORRECTED |})
|}.

(** A recognizer that is down. *)
Definition unavailable : Collaborators string := {|
  recognize_entities := fun _ => Raise "recognizer unavailable"%string;
  correct_entity := fun _ _ _ _ => Ok None
|}.

(** * Properties *)

(** ** Strings *)

Lemma str_eqb_eq (a b : str) : str_eqb a b = true <-> a = b.
Proof.
  revert b; induction a as [|x a IH]; intros [|y b]; simpl;
    try (split; [discriminate | congruence]); [tauto |].
  rewrite andb_true_iff, N.eqb_eq, IH. split.
  - intros [-> ->]; reflexivity.
  - intros [= -> ->]; auto.
Qed.

Lemma str_eqb_refl (a : str) : str_eqb a a = true.
Proof. apply str_eqb_eq; reflexivity. Qed.

Lemma span_eqb_eq (a b : Span) : span_eqb a b = true <-> a = b.
Proof.
  destruct a as [ta sa ea ka], b as [tb sb eb kb]; unfold span_eqb; simpl.
  rewrite !andb_true_iff, str_eqb_eq, !Z.eqb_eq. split.
  - intros [[[-> ->] ->] H]. destruct ka, kb; try discriminate; [|reflexivity].
    apply str_eqb_eq in H; subst; reflexivity.
  - intros [= -> -> -> ->]. repeat split. destruct kb; [apply str_eqb_refl | reflexivity].
Qed.

Lemma startswith_app (text sub : str) :
  startswith text sub = true <-> exists post, text = sub ++ post.
Proof.
  revert text; induction sub as [|x sub IH]; intros text; simpl.
  - split; [exists text; reflexivity | reflexivity].
  - destruct text as [|y text].
    + split; [discriminate | intros [post H]; discriminate].
    + rewrite andb_true_iff, N.eqb_eq, IH. split.
      * intros [-> [post ->]]. exists post; reflexivity.
      * intros [post [= -> ->]]. split; [reflexivity | exists post; reflexivity].
Qed.

(** [find] answers an index where [sub] occurs. *)
Lemma find_occurs (text sub : str) (i : nat) :
  find text sub = Some i ->
  exists post, skipn i text = sub ++ post.
Proof.
  revert i; induction text as [|c text IH]; intros i; simpl.
  - destruct (startswith [] sub) eqn:Hs; [|discriminate].
    intros [= <-]. apply startswith_app in Hs. exact Hs.
  - destruct (startswith (c :: text) sub) eqn:Hs.
    + intros [= <-]. apply startswith_app in Hs. exact Hs.
    + destruct (find text sub) as [j|] eqn:Hf; simpl; [|discriminate].
      intros [= <-]. simpl. apply IH. reflexivity.
Qed.

(** ... and the lowest one: an occurrence at offset [length pre] makes
    [find] answer at most that. *)
Lemma find_complete (pre sub post : str) :
  exists i, find (pre ++ sub ++ post) sub = Some i /\ (i <= List.length pre)%nat.
Proof.
  induction pre as [|c pre [i [Hi Hle]]].
  - exists 0%nat. split; [|simpl; lia].
    assert (Hs : startswith (sub ++ post) sub = true)
      by (apply startswith_app; exists post; reflexivity).
    simpl app. destruct (sub ++ post); simpl in *; rewrite Hs; reflexivity.
  - simpl app. simpl find.
    destruct (startswith (c :: pre ++ sub ++ post) sub).
    + exists 0%nat. split; [reflexivity | lia].
    + rewrite Hi. exists (S i). split; [reflexivity | simpl; lia].
Qed.

(** [sub in text] is literal occurrence. *)
Lemma contains_iff (text sub : str) :
  contains text sub = true <-> exists pre post, text = pre ++ sub ++ post.
Proof.
  unfold contains. split.
  - destruct (find text sub) as [i|] eqn:Hf; [|discriminate].
    intros _. destruct (find_occurs _ _ _ Hf) as [post Hpost].
    exists (firstn i text), post. rewrite <- Hpost. symmetry. apply firstn_skipn.
  - intros [pre [post ->]].
    destruct (find_complete pre sub post) as [i [-> _]]. reflexivity.
Qed.

Lemma find_bound (text sub : str) (i : nat) :
  find text sub = Some i -> (i + List.length sub <= List.length text)%nat.
Proof.
  intros Hf. destruct (find_occurs _ _ _ Hf) as [post Hpost].
  assert (H : List.length (skipn i text) = List.length (sub ++ post)) by (rewrite Hpost; reflexivity).
  rewrite length_skipn, length_app in H.
  destruct (Nat.le_gt_cases i (List.length text)) as [Hle|Hgt]; [lia|].
  exfalso. clear H Hpost. revert i Hf Hgt.
  induction text as [|c text IH]; intros i; simpl.
  - destruct (startswith [] sub); [intros [= <-]; simpl; lia | discriminate].
  - destruct (startswith (c :: text) sub); [intros [= <-]; lia|].
    destruct (find text sub) as [j|] eqn:Hj; simpl; [|discriminate].
    intros [= <-] Hgt. apply (IH j); [reflexivity | lia].
Qed.

(** ** The expander *)

Section Expander.
Variables (allowed : char -> bool) (forbidden : option (char -> bool)).

Lemma expand_left_le (buf : str) (p : nat) :
  (expand_left allowed forbidden buf p <= p)%nat.
Proof.
  induction p as [|i IH]; simpl; [lia|].
  destruct (nth_error buf i) as [c|]; [|lia].
  destruct (allowed c); [|lia].
  destruct (violates forbidden c); lia.
Qed.

(** Every character the leftward loop takes in is allowed and not
    forbidden; the last one taken is the new first character. *)
Lemma expand_left_first (buf : str) (p : nat) :
  (expand_left allowed forbidden buf p < p)%nat ->
  exists c, nth_error buf (expand_left allowed forbidden buf p) = Some c
            /\ allowed c = true /\ violates forbidden c = false.
Proof.
  induction p as [|i IH]; simpl; [lia|].
  destruct (nth_error buf i) as [c|] eqn:Hc; [|lia].
  destruct (allowed c) eqn:Ha; [|lia].
  destruct (violates forbidden c) eqn:Hv; [lia|].
  intros _. pose proof (expand_left_le buf i) as Hle.
  destruct (Nat.eq_dec (expand_left allowed forbidden buf i) i) as [Heq|Hne].
  - rewrite Heq. exists c. auto.
  - apply IH. lia.
Qed.

Lemma expand_right_bounds (rest : str) (e : nat) :
  (e <= expand_right allowed forbidden rest e <= e + List.length rest)%nat.
Proof.
  revert e; induction rest as [|c rest IH]; intros e; simpl; [lia|].
  destruct (allowed c); [|lia].
  destruct (violates forbidden c); [lia|].
  specialize (IH (S e)). lia.
Qed.

Lemma expand_right_last (rest : str) (e : nat) :
  (e < expand_right allowed forbidden rest e)%nat ->
  exists c, nth_error rest (expand_right allowed forbidden rest e - e - 1) = Some c
            /\ allowed c = true /\ violates forbidden c = false.
Proof.
  revert e; induction rest as [|c rest IH]; intros e; simpl; [lia|].
  destruct (allowed c) eqn:Ha; [|lia].
  destruct (violates forbidden c) eqn:Hv; [lia|].
  intros _. pose proof (expand_right_bounds rest (S e)) as Hb.
  destruct (Nat.eq_dec (expand_right allowed forbidden rest (S e)) (S e)) as [Heq|Hne].
  - rewrite Heq. replace (S e - e - 1)%nat with 0%nat by lia. exists c. auto.
  - destruct (IH (S e)) as [d [Hd Hd']]; [lia|].
    exists d. split; [|exact Hd'].
    replace (expand_right allowed forbidden rest (S e) - e - 1)%nat
      with (S (expand_right allowed forbidden rest (S e) - S e - 1)) by lia.
    exact Hd.
Qed.

End Expander.

Lemma violates_forbidden_pattern (chars : str) (c : char) :
  violates (forbidden_pattern chars) c = mem c chars.
Proof. destruct chars; reflexivity. Qed.

Lemma firstn_plus (a b : nat) (l : str) :
  firstn (a + b) l = firstn a l ++ firstn b (skipn a l).
Proof.
  revert l; induction a as [|a IH]; intros [|c l]; simpl; try reflexivity.
  - rewrite firstn_nil. reflexivity.
  - rewrite IH. reflexivity.
Qed.

Lemma slice_split (buf : str) (s p q e : nat) :
  (s <= p)%nat -> (p <= q)%nat -> (q <= e)%nat -> (e <= List.length buf)%nat ->
  slice buf s e = slice buf s p ++ slice buf p q ++ slice buf q e.
Proof.
  intros Hsp Hpq Hqe He. unfold slice.
  replace (e - s)%nat with ((p - s) + ((q - p) + (e - q)))%nat by lia.
  rewrite firstn_plus. f_equal.
  rewrite skipn_skipn. replace (p - s + s)%nat with p by lia.
  rewrite firstn_plus. f_equal.
  rewrite skipn_skipn. replace (q - p + p)%nat with q by lia. reflexivity.
Qed.

Lemma slice_head (buf : str) (s e : nat) (c : char) :
  nth_error buf s = Some c -> (s < e)%nat ->
  exists r, slice buf s e = c :: r.
Proof.
  intros Hc Hlt. unfold slice.
  destruct (nth_error_split _ _ Hc) as [l1 [l2 [-> Hl]]].
  subst s. rewrite skipn_app, Nat.sub_diag, skipn_all. simpl.
  destruct (e - List.length l1)%nat as [|n] eqn:Hn; [lia|]. simpl. eauto.
Qed.

Lemma slice_last (buf : str) (s e : nat) (c : char) :
  nth_error buf (e - 1) = Some c -> (s < e)%nat ->
  exists r, slice buf s e = r ++ [c].
Proof.
  intros Hc Hlt.
  assert (He : (e <= List.length buf)%nat).
  { assert (e - 1 < List.length buf)%nat by (apply nth_error_Some; congruence). lia. }
  rewrite (slice_split buf s (e - 1) (e - 1) e) by lia.
  exists (slice buf s (e - 1)). f_equal.
  unfold slice at 1. rewrite Nat.sub_diag. simpl.
  unfold slice. replace (e - (e - 1))%nat with 1%nat by lia.
  destruct (nth_error_split _ _ Hc) as [l1 [l2 [-> Hl]]].
  rewrite skipn_app, <- Hl, Nat.sub_diag, skipn_all. reflexivity.
Qed.

Lemma slice_occurrence (buf sub : str) (p : nat) :
  find buf sub = Some p -> slice buf p (p + List.length sub) = sub.
Proof.
  intros Hf. destruct (find_occurs _ _ _ Hf) as [post Hpost].
  unfold slice. rewrite Hpost.
  replace (p + List.length sub - p)%nat with (List.length sub + 0)%nat by lia.
  rewrite firstn_app_2. simpl. apply app_nil_r.
Qed.

Lemma expand_bounds_spec (buf sub custom fs fe : str) (p : nat) :
  find buf sub = Some p ->
  exists s e, expand_bounds buf sub custom fs fe = Some (s, e)
    /\ (s <= p)%nat /\ (p + List.length sub <= e)%nat
    /\ (e <= List.length buf)%nat.
Proof.
  intros Hf. unfold expand_bounds. rewrite Hf.
  eexists; eexists; split; [reflexivity|].
  pose proof (find_bound _ _ _ Hf) as Hb.
  pose proof (expand_right_bounds (base_chars custom) (forbidden_pattern fe)
                (skipn (p + List.length sub) buf) (p + List.length sub)) as Hr.
  rewrite length_skipn in Hr.
  split; [apply expand_left_le | lia].
Qed.

(** C9 — a substring that does not occur in the text comes back
    unchanged: [expand_substring] is a total function and has no failure
    for it. *)
Theorem expand_substring_absent (buf sub custom fs fe : str) :
  contains buf sub = false ->
  expand_substring buf sub custom fs fe = sub.
Proof.
  unfold contains, expand_substring, expand_bounds.
  destruct (find buf sub); [discriminate | reflexivity].
Qed.

Lemma expand_substring_absent_witness :
  expand_substring (py "pay now") (py "INV") (py "-") [] [] = py "INV".
Proof. apply expand_substring_absent. reflexivity. Defined.

(** C7 — when the substring occurs in the text, the result is the slice
    [text[s:e]] of an interval that contains the interval of the first
    occurrence, and the substring occurs in the result. *)
Theorem expand_substring_monotone (buf sub custom fs fe : str) :
  contains buf sub = true ->
  exists p s e,
    find buf sub = Some p
    /\ expand_substring buf sub custom fs fe = slice buf s e
    /\ (s <= p)%nat /\ (p + List.length sub <= e)%nat
    /\ (e <= List.length buf)%nat
    /\ contains (expand_substring buf sub custom fs fe) sub = true.
Proof.
  unfold contains at 1. destruct (find buf sub) as [p|] eqn:Hf; [|discriminate].
  intros _.
  destruct (expand_bounds_spec buf sub custom fs fe p Hf) as [s [e [Hb [Hs [He Hlen]]]]].
  exists p, s, e. unfold expand_substring. rewrite Hb.
  repeat (split; [assumption || reflexivity|]).
  rewrite (slice_split buf s p (p + List.length sub) e) by lia.
  rewrite (slice_occurrence _ _ _ Hf).
  apply contains_iff. eauto.
Qed.

Lemma expand_substring_monotone_witness :
  exists p s e,
    find (py "id: x-42b.") (py "42") = Some p
    /\ expand_substring (py "id: x-42b.") (py "42") (py "-") [] [] = slice (py "id: x-42b.") s e
    /\ (s <= p)%nat /\ (p + 2 <= e)%nat /\ (e <= 10)%nat
    /\ contains (expand_substring (py "id: x-42b.") (py "42") (py "-") [] []) (py "42") = true.
Proof.
  apply (expand_substring_monotone (py "id: x-42b.") (py "42") (py "-") [] []).
  reflexivity.
Defined.

(** C5 as stated fails: a forbidden character that already starts the
    substring stays first when the expansion only grows rightward. *)
Lemma forbidden_start_kept :
  exists c r,
    expand_substring (py "-abc") (py "-ab") (py "-") (py "-") [] = c :: r
    /\ c :: r <> py "-ab"
    /\ mem c (py "-") = true.
Proof.
  exists 45%N, (py "abc"). repeat split. discriminate.
Qed.

(** C5, amended — a boundary that the expansion moved is never a
    forbidden character: if the result starts left of the occurrence its
    first character is not in [forbidden_start_chars], and if it ends right
    of the occurrence its last character is not in [forbidden_end_chars]. *)
Theorem forbidden_boundary_of_extension (buf sub custom fs fe : str) (p s e : nat) :
  find buf sub = Some p ->
  expand_bounds buf sub custom fs fe = Some (s, e) ->
  ((s < p)%nat ->
     exists c r, expand_substring buf sub custom fs fe = c :: r
                 /\ mem c fs = false)
  /\ ((p + List.length sub < e)%nat ->
        exists r c, expand_substring buf sub custom fs fe = r ++ [c]
                    /\ mem c fe = false).
Proof.
  intros Hf Hb.
  destruct (expand_bounds_spec buf sub custom fs fe p Hf) as [s' [e' [Hb' [Hs [He Hlen]]]]].
  rewrite Hb in Hb'. injection Hb' as <- <-.
  unfold expand_substring. rewrite Hb.
  unfold expand_bounds in Hb. rewrite Hf in Hb. injection Hb as Hs' He'.
  split; intros Hlt.
  - destruct (expand_left_first (base_chars custom) (forbidden_pattern fs) buf p)
      as [c [Hc [_ Hv]]]; [lia|].
    rewrite Hs' in Hc. destruct (slice_head buf s e c Hc) as [r Hr]; [lia|].
    exists c, r. rewrite violates_forbidden_pattern in Hv. auto.
  - destruct (expand_right_last (base_chars custom) (forbidden_pattern fe)
                (skipn (p + List.length sub) buf) (p + List.length sub))
      as [c [Hc [_ Hv]]]; [lia|].
    rewrite He' in Hc. rewrite nth_error_skipn in Hc.
    replace (p + List.length sub + (e - (p + List.length sub) - 1))%nat
      with (e - 1)%nat in Hc by lia.
    destruct (slice_last buf s e c Hc) as [r Hr]; [lia|].
    exists r, c. rewrite violates_forbidden_pattern in Hv. auto.
Qed.

Lemma forbidden_boundary_of_extension_witness :
  (exists c r, expand_substring (py "a-bc1-d") (py "c") (py "-") (py "-") (py "-") = c :: r
               /\ mem c (py "-") = false)
  /\ (exists r c, expand_substring (py "a-bc1-d") (py "c") (py "-") (py "-") (py "-") = r ++ [c]
                  /\ mem c (py "-") = false).
Proof.
  destruct (forbidden_boundary_of_extension
              (py "a-bc1-d") (py "c") (py "-") (py "-") (py "-") 3 2 5
              eq_refl eq_refl) as [Hl Hr].
  split; [apply Hl | apply Hr]; simpl; lia.
Defined.

(** ** The resolver *)

Section ResolverFacts.
Context {U : Unicode} {E : Type}.

Lemma process_query_candidates (self : Collaborators E)
    (query custom fs fe : str) (sc ec : bool) :
  process_query self query custom fs fe sc ec =
  (cands <- candidates self (preprocess_query query) custom sc ec ;;
   for_each (resolve_entity self (preprocess_query query) cands custom fs fe) cands).
Proof.
  unfold process_query, candidates.
  destruct (recognize_entities self (preprocess_query query)) as [[|c cs]|e];
    reflexivity.
Qed.

(** Each span of the final list is its candidate or the corrector's
    answer for it. *)
Lemma resolve_entity_cases (self : Collaborators E)
    (q : str) (all : list Span) (custom fs fe : str) (entity r : Span) :
  resolve_entity self q all custom fs fe entity = Ok r ->
  r = entity
  \/ exists expanded,
       correct_entity self (text entity) expanded
         (start_index entity) (end_index entity) = Ok (Some r).
Proof.
  unfold resolve_entity.
  destruct (str_eqb _ (text entity)); [intros [= <-]; auto|].
  destruct (correct_entity self _ _ _ _) as [[c|]|e] eqn:Hc; simpl;
    [intros [= <-] | intros [= <-]; auto | discriminate].
  right. eexists. exact Hc.
Qed.

Lemma for_each_Forall2 {A B} (f : A -> result E B) (l : list A) (out : list B) :
  for_each f l = Ok out -> Forall2 (fun a b => f a = Ok b) l out.
Proof.
  revert out; induction l as [|x l IH]; simpl; intros out.
  - intros [= <-]. constructor.
  - destruct (f x) as [y|e] eqn:Hx; simpl; [|discriminate].
    destruct (for_each f l) as [ys|e]; simpl; [|discriminate].
    intros [= <-]. constructor; auto.
Qed.

Lemma for_each_shipped (q : str) (all l : list Span) (custom fs fe : str) :
  for_each (resolve_entity (shipped E) q all custom fs fe) l = Ok l.
Proof.
  induction l as [|x l IH]; simpl; [reflexivity|].
  rewrite IH. unfold resolve_entity.
  destruct (str_eqb _ (text x)); reflexivity.
Qed.

End ResolverFacts.

Lemma overlap_free_same_intervals (l l' : list Span) :
  Forall2 same_interval l l' -> overlap_free l = overlap_free l'.
Proof.
  induction 1 as [|a b l l' [Hs He] Hl IH]; simpl; [reflexivity|].
  f_equal; [|exact IH].
  clear IH. induction Hl as [|c d l l' [Hs' He'] _ IH]; simpl; [reflexivity|].
  f_equal; [|exact IH].
  unfold intersects. rewrite Hs, He, Hs', He'. reflexivity.
Qed.

Lemma intersects_sym (a b : Span) : intersects a b = intersects b a.
Proof.
  unfold intersects, overlaps.
  rewrite !Z.gtb_ltb. apply andb_comm.
Qed.

(** [overlap_free] says what it should: no two positions of the list hold
    intersecting spans. *)
Lemma overlap_free_iff (l : list Span) :
  overlap_free l = true <->
  forall i j a b, i <> j -> nth_error l i = Some a -> nth_error l j = Some b ->
                  intersects a b = false.
Proof.
  induction l as [|x l IH]; simpl.
  - split; [intros _ [|i] j a b _ H; discriminate | reflexivity].
  - rewrite andb_true_iff, forallb_forall, IH. split.
    + intros [Hx Hl] [|i] [|j] a b Hij Ha Hb; simpl in *.
      * congruence.
      * injection Ha as <-. apply nth_error_In in Hb.
        apply Hx in Hb. apply negb_true_iff in Hb. exact Hb.
      * injection Hb as <-. apply nth_error_In in Ha.
        apply Hx in Ha. apply negb_true_iff in Ha.
        rewrite intersects_sym. exact Ha.
      * apply (Hl i j); auto.
    + intros H. split.
      * intros b Hb. apply In_nth_error in Hb. destruct Hb as [j Hj].
        apply negb_true_iff. apply (H 0%nat (S j)); auto.
      * intros i j a b Hij Ha Hb. apply (H (S i) (S j)); auto.
Qed.

(** C3 as stated fails: a candidate is left out of the check when it
    equals the span as a dictionary, so an equal copy at another position
    of the list does not veto.  Over ["AB_CD"] the expansion of the first
    ["AB"] is located at [0, 5), which meets the [0, 2) of the copy at
    position 1, and the expansion is returned. *)
Lemma equal_copy_does_not_veto :
  let all_entities := [span_AB; span_AB] in
  let expanded_text := expand_substring (py "AB_CD") (text span_AB) (py "_") [] [] in
  let expanded_start := find_z (py "AB_CD") expanded_text in
  let expanded_end := (expanded_start + len expanded_text)%Z in
  nth_error all_entities 0 = Some span_AB
  /\ nth_error all_entities 1 = Some span_AB
  /\ overlaps expanded_start expanded_end (start_index span_AB, end_index span_AB) = true
  /\ expand_entity_without_overlap (py "AB_CD") span_AB all_entities (py "_") [] []
     = py "AB_CD"
  /\ py "AB_CD" <> text span_AB.
Proof.
  repeat split. discriminate.
Qed.

(** C3, amended — the overlap veto: when the interval located for the
    expanded text meets the interval of a candidate of the list that
    differs from the span as a dictionary, the expansion is dropped, the
    span's text is returned and the span itself goes to the final list. *)
Theorem overlap_veto {E : Type} (self : Collaborators E)
    (query : str) (entity other : Span) (all_entities : list Span)
    (custom fs fe : str) :
  In other all_entities ->
  other <> entity ->
  (let expanded_text := expand_substring query (text entity) custom fs fe in
   let expanded_start := find_z query expanded_text in
   let expanded_end := (expanded_start + len expanded_text)%Z in
   overlaps expanded_start expanded_end (start_index other, end_index other) = true) ->
  expand_entity_without_overlap query entity all_entities custom fs fe = text entity
  /\ resolve_entity self query all_entities custom fs fe entity = Ok entity.
Proof.
  intros Hin Hne Hov.
  assert (Hx : expand_entity_without_overlap query entity all_entities custom fs fe
               = text entity).
  { unfold expand_entity_without_overlap.
    match goal with |- (if ?b then _ else _) = _ => assert (Hb : b = true) end.
    { apply existsb_exists. exists (start_index other, end_index other).
      split; [|exact Hov].
      apply in_map_iff. exists other. split; [reflexivity|].
      apply filter_In. split; [exact Hin|].
      apply negb_true_iff. destruct (span_eqb other entity) eqn:Heq; [|reflexivity].
      apply span_eqb_eq in Heq. contradiction. }
    rewrite Hb. reflexivity. }
  split; [exact Hx|].
  unfold resolve_entity. rewrite Hx, str_eqb_refl. reflexivity.
Qed.

Lemma overlap_veto_witness :
  expand_entity_without_overlap (py "AB_CD") span_AB [span_AB; span_CD]
    (py "_") [] [] = py "AB"
  /\ resolve_entity (shipped unit) (py "AB_CD")
       [span_AB; span_CD] (py "_") [] [] span_AB = Ok span_AB.
Proof.
  apply (overlap_veto (shipped unit) (py "AB_CD")
           span_AB span_CD [span_AB; span_CD] (py "_") [] []).
  - right; left; reflexivity.
  - discriminate.
  - reflexivity.
Defined.

(** C10 — with the two methods as shipped, [process_query] answers the
    list of [detect_potential_entities] on the normalised query, span for
    span, each of type DETECTED. *)
Theorem shipped_process_query {U : Unicode} (E : Type)
    (query custom fs fe : str) (sc ec : bool) :
  process_query (shipped E) query custom fs fe sc ec
  = Ok (detect_potential_entities (process query) custom sc ec)
  /\ Forall (fun entity => type entity = Some DETECTED)
       (detect_potential_entities (process query) custom sc ec).
Proof.
  split.
  - unfold process_query.
    change (recognize_entities (shipped E) (preprocess_query query))
      with (@Ok E (list Span) []).
    apply for_each_shipped.
  - unfold detect_potential_entities. apply Forall_map.
    apply Forall_forall. reflexivity.
Qed.

(** C6 — a raise of the recognizer is the answer of [process_query],
    whatever the configuration; the scanner's spans are resolved exactly
    when the recognizer returned the empty list, and the recognizer's own
    (sorted) when it returned any. *)
Theorem recognizer_failure_propagates {U : Unicode} {E : Type}
    (self : Collaborators E) (query custom fs fe : str) (sc ec : bool) :
  let processed_query := preprocess_query query in
  (forall e, recognize_entities self processed_query = Raise e ->
             process_query self query custom fs fe sc ec = Raise e)
  /\ (recognize_entities self processed_query = Ok [] ->
      let potential := detect_potential_entities processed_query custom sc ec in
      process_query self query custom fs fe sc ec
      = for_each (resolve_entity self processed_query potential custom fs fe) potential)
  /\ (forall c cs, recognize_entities self processed_query = Ok (c :: cs) ->
      let entities := sort_by_start (c :: cs) in
      process_query self query custom fs fe sc ec
      = for_each (resolve_entity self processed_query entities custom fs fe) entities).
Proof.
  intros pq. unfold process_query. fold pq.
  repeat split; intros; rewrite H; reflexivity.
Qed.

Lemma recognizer_failure_propagates_witness :
  process_query (U:=Excerpt.unicode) unavailable (py "ab a") [] [] [] false false
  = Raise "recognizer unavailable"%string.
Proof.
  apply (recognizer_failure_propagates (U:=Excerpt.unicode) unavailable
           (py "ab a") [] [] [] false false).
  reflexivity.
Defined.

(** C1 as stated fails.  The scanner gives each run the interval of the
    first occurrence of its text: in ["ab a"] the run ["a"] gets [0, 1),
    inside the [0, 2) of ["ab"], and both spans are in the final list. *)
Lemma fallback_spans_overlap :
  exists final,
    process_query (U:=Excerpt.unicode) (shipped unit) (py "ab a") [] [] [] false false
    = Ok final
    /\ overlap_free final = false.
Proof.
  eexists. split; vm_compute; reflexivity.
Qed.

(** Nor does the loop repair candidates of the recognizer that already
    intersect: each expansion is vetoed and both spans are kept. *)
Lemma recognizer_spans_overlap :
  let ab := {| text := py "ab"; start_index := 0; end_index := 2; type := None |} in
  let bc := {| text := py "bc"; start_index := 1; end_index := 3; type := None |} in
  let self := {| recognize_entities := fun _ => Ok [ab; bc];
                 correct_entity := fun _ _ _ _ => Ok None |} in
  process_query (U:=Excerpt.unicode) (E:=unit) self (py "abc") [] [] [] false false
  = Ok [ab; bc]
  /\ overlap_free [ab; bc] = false.
Proof. split; vm_compute; reflexivity. Qed.

(** C1, amended — when the corrector, where it answers, keeps the
    boundaries it is given, the final list has, position by position, the
    intervals of the candidate list (the recognizer's entities, sorted, or
    the scanner's spans); so it is free of intersections exactly when the
    candidate list is. *)
Theorem candidate_intervals_kept {U : Unicode} {E : Type}
    (self : Collaborators E) (query custom fs fe : str) (sc ec : bool)
    (cands final : list Span) :
  candidates self (preprocess_query query) custom sc ec = Ok cands ->
  process_query self query custom fs fe sc ec = Ok final ->
  keeps_interval self ->
  Forall2 same_interval cands final
  /\ overlap_free final = overlap_free cands.
Proof.
  intros Hc Hp Hk.
  rewrite process_query_candidates, Hc in Hp. simpl in Hp.
  apply for_each_Forall2 in Hp.
  assert (Hsame : Forall2 same_interval cands final).
  { eapply Forall2_impl; [|exact Hp]. intros a b Hab.
    destruct (resolve_entity_cases _ _ _ _ _ _ _ _ Hab) as [->|[x Hx]].
    - split; reflexivity.
    - destruct (Hk _ _ _ _ _ Hx) as [Hs He]. split; congruence. }
  split; [exact Hsame|].
  symmetry. apply overlap_free_same_intervals. exact Hsame.
Qed.

Lemma correcting_keeps_interval : keeps_interval correcting.
Proof.
  intros o x s e c H. injection H as <-. split; reflexivity.
Defined.

Lemma candidate_intervals_kept_witness :
  let final :=
    [ {| text := py "42b"; start_index := 2; end_index := 4; type := Some CORRECTED |};
      {| text := py "yz1"; start_index := 7; end_index := 8; type := Some CORRECTED |} ] in
  Forall2 same_interval [span_42; span_z] final
  /\ overlap_free final = overlap_free [span_42; span_z].
Proof.
  apply (candidate_intervals_kept (U:=Excerpt.unicode) correcting
           (py "x 42b yz1 w") [] [] [] false false).
  - reflexivity.
  - vm_compute. reflexivity.
  - exact correcting_keeps_interval.
Defined.

(** ** The normaliser *)

Lemma In_replace (old : char) (new l : str) (c : char) :
  In c (replace old new l) -> In c new \/ (In c l /\ c <> old).
Proof.
  induction l as [|x l IH]; simpl; [tauto|].
  rewrite in_app_iff. intros [H|H].
  - destruct (N.eqb_spec x old) as [->|Hne]; [auto|].
    destruct H as [<-|[]]. auto.
  - destruct (IH H) as [|[? ?]]; auto.
Qed.

Lemma replace_absent (old : char) (new l : str) :
  ~ In old l -> replace old new l = l.
Proof.
  induction l as [|x l IH]; simpl; [reflexivity|].
  intros H. destruct (N.eqb_spec x old) as [->|Hne]; [tauto|].
  simpl. f_equal. apply IH. tauto.
Qed.

Lemma In_replace_each (chars new l : str) (c : char) :
  In c (fold_left (fun text ch => replace ch new text) chars l) ->
  In c new \/ (In c l /\ ~ In c chars).
Proof.
  revert l; induction chars as [|ch chars IH]; simpl; intros l H; [tauto|].
  destruct (IH _ H) as [|[H1 H2]]; [auto|].
  destruct (In_replace _ _ _ _ H1) as [|[H3 H4]]; [auto|].
  right. split; [exact H3|]. intros [->|]; tauto.
Qed.

Lemma replace_each_absent (chars new l : str) :
  (forall ch, In ch chars -> ~ In ch l) ->
  fold_left (fun text ch => replace ch new text) chars l = l.
Proof.
  induction chars as [|ch chars IH]; simpl; intros H; [reflexivity|].
  rewrite replace_absent by auto. apply IH. auto.
Qed.

Lemma plain_SP : plain SP.
Proof.
  repeat split; try reflexivity; simpl; intuition discriminate.
Qed.

Lemma remove_invisible_chars_In (l : str) (c : char) :
  In c (remove_invisible_chars l) ->
  ~ In c invisible_chars /\ is_ascii_control c = false.
Proof.
  unfold remove_invisible_chars. rewrite filter_In, negb_true_iff.
  intros [H Hc]. apply In_replace_each in H. destruct H as [[]|H]. tauto.
Qed.

Lemma normalize_spaces_plain (l : str) :
  Forall plain (normalize_spaces (remove_invisible_chars l)).
Proof.
  apply Forall_forall. intros c H. unfold normalize_spaces in H.
  apply In_replace_each in H. destruct H as [[<-|[]]|[H Hs]].
  - apply plain_SP.
  - apply remove_invisible_chars_In in H. unfold plain. tauto.
Qed.

Lemma takewhile_dropwhile (p : char -> bool) (l : str) :
  takewhile p l ++ dropwhile p l = l.
Proof.
  induction l as [|c l IH]; simpl; [reflexivity|].
  destruct (p c); simpl; [f_equal; exact IH | reflexivity].
Qed.

Lemma dropwhile_incl (p : char -> bool) (l : str) (c : char) :
  In c (dropwhile p l) -> In c l.
Proof.
  intros H. rewrite <- (takewhile_dropwhile p l). apply in_or_app. auto.
Qed.

Lemma strip_incl (l : str) (c : char) : In c (strip l) -> In c l.
Proof.
  unfold strip. rewrite <- in_rev. intros H.
  apply dropwhile_incl in H. rewrite <- in_rev in H.
  apply dropwhile_incl in H. exact H.
Qed.

Lemma collapse_spaces_incl (l : str) (c : char) :
  In c (collapse_spaces l) -> In c l.
Proof.
  induction l as [|x l IH]; [tauto|].
  change (In c (collapse_spaces (x :: l))) with
    (In c (if N.eqb x SP then
             match l with
             | c' :: _ => if N.eqb c' SP then collapse_spaces l
                          else x :: collapse_spaces l
             | [] => [x]
             end
           else x :: collapse_spaces l)).
  destruct (N.eqb x SP); [destruct l as [|y l']|].
  - tauto.
  - destruct (N.eqb y SP); simpl in *; tauto.
  - simpl in *; tauto.
Qed.

(** *** Trimming *)

Lemma dropwhile_clean_head (l : str) : clean_head (dropwhile isspace l).
Proof.
  induction l as [|c l IH]; simpl; [exact I|].
  destruct (isspace c) eqn:Hc; [exact IH | exact Hc].
Qed.

Lemma dropwhile_fixed (l : str) : clean_head l -> dropwhile isspace l = l.
Proof.
  destruct l as [|c l]; simpl; [reflexivity|]. intros ->. reflexivity.
Qed.

Lemma rstrip_clean_head (l : str) :
  clean_head l -> clean_head (rev (dropwhile isspace (rev l))).
Proof.
  intros Hl.
  pose proof (takewhile_dropwhile isspace (rev l)) as H.
  apply (f_equal (@rev char)) in H. rewrite rev_app_distr, rev_involutive in H.
  destruct (rev (dropwhile isspace (rev l))) as [|c u]; [exact I|].
  rewrite <- H in Hl. exact Hl.
Qed.

Lemma strip_idempotent (l : str) : strip (strip l) = strip l.
Proof.
  unfold strip at 1.
  rewrite (dropwhile_fixed (strip l)).
  - unfold strip. rewrite rev_involutive.
    rewrite dropwhile_fixed by apply dropwhile_clean_head. reflexivity.
  - apply rstrip_clean_head, dropwhile_clean_head.
Qed.

(** *** Runs of spaces *)

Lemma spaced_iff (l : str) : spaced l = true <-> no_double_space l.
Proof.
  unfold no_double_space. induction l as [|c l IH].
  - split; [|reflexivity]. intros _ [|x pre] post; discriminate.
  - destruct l as [|c' l].
    + split; [|reflexivity]. intros _ [|x [|y pre]] post; discriminate.
    + change (spaced (c :: c' :: l))
        with (negb (N.eqb c SP && N.eqb c' SP) && spaced (c' :: l)).
      rewrite andb_true_iff, negb_true_iff, IH. split.
      * intros [Hg Hl] [|x pre] post.
        -- intros [= -> -> _]. discriminate Hg.
        -- intros [= _ H]. exact (Hl _ _ H).
      * intros H. split.
        -- destruct (N.eqb_spec c SP) as [->|]; [|reflexivity].
           destruct (N.eqb_spec c' SP) as [->|]; [|reflexivity].
           exfalso. exact (H [] l eq_refl).
        -- intros pre post Heq. apply (H (c :: pre) post). simpl. congruence.
Qed.

Lemma no_double_space_rev (l : str) : no_double_space l -> no_double_space (rev l).
Proof.
  intros H pre post Heq. apply (H (rev post) (rev pre)).
  apply (f_equal (@rev char)) in Heq. rewrite rev_involutive in Heq.
  rewrite Heq, rev_app_distr. simpl. rewrite <- !app_assoc. reflexivity.
Qed.

Lemma no_double_space_dropwhile (p : char -> bool) (l : str) :
  no_double_space l -> no_double_space (dropwhile p l).
Proof.
  intros H pre post Heq. apply (H (takewhile p l ++ pre) post).
  rewrite <- app_assoc, <- Heq. symmetry. apply takewhile_dropwhile.
Qed.

Lemma no_double_space_strip (l : str) : no_double_space l -> no_double_space (strip l).
Proof.
  intros H. unfold strip.
  apply no_double_space_rev, no_double_space_dropwhile,
    no_double_space_rev, no_double_space_dropwhile, H.
Qed.

Lemma collapse_spaces_cons (x : char) (l : str) :
  collapse_spaces (x :: l) =
  if N.eqb x SP then
    match l with
    | c' :: _ => if N.eqb c' SP then collapse_spaces l else x :: collapse_spaces l
    | [] => [x]
    end
  else x :: collapse_spaces l.
Proof. reflexivity. Qed.

Lemma collapse_spaces_head (l : str) :
  hd_error (collapse_spaces l) = hd_error l.
Proof.
  induction l as [|x l IH]; [reflexivity|].
  rewrite collapse_spaces_cons.
  destruct (N.eqb_spec x SP) as [->|]; [|reflexivity].
  destruct l as [|y l]; [reflexivity|].
  destruct (N.eqb_spec y SP) as [->|]; [|reflexivity].
  exact IH.
Qed.

Lemma spaced_cons (x : char) (r : str) :
  N.eqb x SP = false -> spaced (x :: r) = spaced r.
Proof. intros Hx. destruct r as [|y r]; simpl; [|rewrite Hx]; reflexivity. Qed.

Lemma collapse_spaces_spaced (l : str) : spaced (collapse_spaces l) = true.
Proof.
  induction l as [|x l IH]; [reflexivity|].
  rewrite collapse_spaces_cons.
  destruct (N.eqb x SP) eqn:Hx; [|rewrite spaced_cons; assumption].
  destruct l as [|y l]; [reflexivity|].
  destruct (N.eqb y SP) eqn:Hy; [exact IH|].
  pose proof (collapse_spaces_head (y :: l)) as Hh.
  destruct (collapse_spaces (y :: l)) as [|z r]; [discriminate|].
  injection Hh as ->.
  change (spaced (x :: y :: r))
    with (negb (N.eqb x SP && N.eqb y SP) && spaced (y :: r)).
  rewrite Hy, andb_false_r. exact IH.
Qed.

Lemma collapse_spaces_fixed (l : str) : spaced l = true -> collapse_spaces l = l.
Proof.
  induction l as [|x l IH]; [reflexivity|].
  rewrite collapse_spaces_cons. destruct l as [|y l].
  - intros _. destruct (N.eqb x SP); reflexivity.
  - change (spaced (x :: y :: l))
      with (negb (N.eqb x SP && N.eqb y SP) && spaced (y :: l)).
    rewrite andb_true_iff, negb_true_iff. intros [Hg Hl].
    rewrite (IH Hl).
    destruct (N.eqb x SP); [|reflexivity].
    destruct (N.eqb y SP); [discriminate | reflexivity].
Qed.

Section Idempotence.
Context {U : Unicode}.

(** The output of the pipeline: plain characters, no double space,
    trimmed. *)
Lemma process_plain (s : str) : Forall plain (process s).
Proof.
  unfold process. apply Forall_forall. intros c H.
  apply strip_incl, collapse_spaces_incl in H.
  revert c H. apply Forall_forall. apply normalize_spaces_plain.
Qed.

Lemma process_spaced (s : str) : spaced (process s) = true.
Proof.
  unfold process. apply spaced_iff, no_double_space_strip, spaced_iff.
  apply collapse_spaces_spaced.
Qed.

(** On such text every step after the two table-driven ones is the
    identity. *)
Lemma steps_fixed (t : str) :
  Forall plain t -> spaced t = true -> strip t = t ->
  strip (collapse_spaces (normalize_spaces (remove_invisible_chars
    (remove_non_breaking_spaces t)))) = t
  /\ remove_non_breaking_spaces t = t.
Proof.
  intros Hp Hs Ht. rewrite Forall_forall in Hp.
  assert (Hn : remove_non_breaking_spaces t = t).
  { unfold remove_non_breaking_spaces.
    assert (H : forall c, In c space_chars -> ~ In c t)
      by (intros c Hc Hin; apply (Hp c Hin); exact Hc).
    rewrite (replace_absent 0x00A0) by (apply H; simpl; tauto).
    rewrite (replace_absent 0x2007) by (apply H; simpl; tauto).
    apply replace_absent. apply H; simpl; tauto. }
  split; [|exact Hn]. rewrite Hn.
  assert (Hi : remove_invisible_chars t = t).
  { unfold remove_invisible_chars. rewrite replace_each_absent.
    - apply forallb_filter_id. apply forallb_forall. intros c Hc.
      apply negb_true_iff. apply (Hp c Hc).
    - intros c Hc Hin. destruct (Hp c Hin) as [Hinv _]. exact (Hinv Hc). }
  rewrite Hi.
  assert (Hsp : normalize_spaces t = t).
  { unfold normalize_spaces. apply replace_each_absent.
    intros c Hc Hin. apply (Hp c Hin). exact Hc. }
  rewrite Hsp, (collapse_spaces_fixed _ Hs). exact Ht.
Qed.

End Idempotence.

(** The removal step alone deletes the three code points, as its comment
    says. *)
Lemma remove_non_breaking_spaces_deletes :
  remove_non_breaking_spaces [0x61; 0xA0; 0x2007; 0x62; 0x202F]%N = py "ab".
Proof. reflexivity. Qed.

(** Whatever the tables are, once NFKC has folded U+00A0 to a space the
    pipeline keeps that space. *)
Lemma process_folded_nbsp {U : Unicode} (nbsp : char) :
  NFKC [0x61; nbsp; 0x62]%N = py "a b" ->
  lower (py "a b") = py "a b" ->
  process [0x61; nbsp; 0x62]%N = py "a b".
Proof.
  intros Hn Hl. unfold process, fullwidth_to_halfwidth, to_lower.
  rewrite Hn.
  change (remove_non_breaking_spaces (py "a b")) with (py "a b").
  rewrite Hl. reflexivity.
Qed.

(** C2 — the pipeline on ["a" + U+00A0 + "b"], and on the same with
    U+2007 and U+202F: NFKC, which runs first, folds each of the three to
    U+0020, the removal step finds nothing to delete, and the answer is
    ["a b"], not ["ab"]. *)
Theorem process_nbsp_becomes_space :
  process (U:=Excerpt.unicode) [0x61; 0x00A0; 0x62]%N = py "a b"
  /\ process (U:=Excerpt.unicode) [0x61; 0x2007; 0x62]%N = py "a b"
  /\ process (U:=Excerpt.unicode) [0x61; 0x202F; 0x62]%N = py "a b".
Proof. repeat split; apply process_folded_nbsp; reflexivity. Qed.

(** The scenario of the specification. *)
Example process_apple_pay :
  process (U:=Excerpt.unicode)
    ([0xFF21; 0xFF50; 0xFF50; 0xFF4C; 0xFF45; 0x200B]%N ++ py " Pay")
  = py "apple pay".
Proof. reflexivity. Qed.

(** Whatever the tables are: a zero-width space keeps NFKC from composing
    [a] with a following U+0301; the pipeline then deletes it, and a second
    run composes the two. *)
Lemma process_twice_composes {U : Unicode} :
  NFKC [0x61; 0x200B; 0x301]%N = [0x61; 0x200B; 0x301]%N ->
  lower [0x61; 0x200B; 0x301]%N = [0x61; 0x200B; 0x301]%N ->
  NFKC [0x61; 0x301]%N = [0xE1]%N ->
  lower [0xE1]%N = [0xE1]%N ->
  process [0x61; 0x200B; 0x301]%N = [0x61; 0x301]%N
  /\ process (process [0x61; 0x200B; 0x301]%N) = [0xE1]%N.
Proof.
  intros Hn Hl Hn' Hl'.
  assert (H1 : process [0x61; 0x200B; 0x301]%N = [0x61; 0x301]%N).
  { unfold process, fullwidth_to_halfwidth, to_lower. rewrite Hn.
    change (remove_non_breaking_spaces [0x61; 0x200B; 0x301]%N)
      with [0x61; 0x200B; 0x301]%N.
    rewrite Hl. reflexivity. }
  split; [exact H1|]. rewrite H1.
  unfold process, fullwidth_to_halfwidth, to_lower. rewrite Hn'.
  change (remove_non_breaking_spaces [0xE1]%N) with [0xE1]%N.
  rewrite Hl'. reflexivity.
Qed.

(** C4 as stated fails: on ["a" + U+200B + U+0301] the second run changes
    the result of the first. *)
Lemma process_not_idempotent :
  process (U:=Excerpt.unicode) (process (U:=Excerpt.unicode) [0x61; 0x200B; 0x301]%N)
  <> process (U:=Excerpt.unicode) [0x61; 0x200B; 0x301]%N.
Proof.
  destruct (process_twice_composes (U:=Excerpt.unicode)
              eq_refl eq_refl eq_refl eq_refl) as [-> H].
  intros Heq. rewrite Heq in H. discriminate H.
Qed.

(** C4, amended — a second run changes nothing when the result of the
    first is a fixed point of NFKC and of lowercasing: every other step of
    the pipeline is the identity on its own output. *)
Theorem process_idempotent_on_stable {U : Unicode} (s : str) :
  NFKC (process s) = process s ->
  lower (process s) = process s ->
  process (process s) = process s.
Proof.
  intros Hn Hl.
  destruct (steps_fixed (process s) (process_plain s) (process_spaced s))
    as [Hsteps Hnb].
  { unfold process at 1. apply strip_idempotent. }
  unfold process at 1. unfold fullwidth_to_halfwidth, to_lower.
  rewrite Hn, Hnb, Hl. rewrite <- Hnb at 1. exact Hsteps.
Qed.

Lemma process_idempotent_on_stable_witness :
  process (U:=Excerpt.unicode) (process (U:=Excerpt.unicode) (py "  Pay   the INVOICE "))
  = process (U:=Excerpt.unicode) (py "  Pay   the INVOICE ").
Proof.
  apply (process_idempotent_on_stable (U:=Excerpt.unicode)); reflexivity.
Defined.

(** ** The scanner *)

Section Scan.
Variable p : char -> bool.

Lemma scan_skip (P : pattern) (k : nat) (s : str) :
  scan P k false s = scan P 0 false (skipn k s).
Proof.
  revert s; induction k as [|k IH]; intros [|c s]; try reflexivity.
  simpl scan at 1. rewrite IH. reflexivity.
Qed.

Lemma scan_exhausted (P : pattern) (k : nat) (s : str) :
  (List.length s <= k)%nat -> scan P k false s = [].
Proof.
  intros H. rewrite scan_skip, skipn_all2 by exact H. reflexivity.
Qed.

(** After position 0 a pattern that starts with [^] matches nowhere. *)
Lemma scan_caret_later (P : pattern) (k : nat) (s : str) :
  caret P = true -> scan P k false s = [].
Proof.
  intros Hc. revert k; induction s as [|c s IH]; intros k; [reflexivity|].
  simpl. destruct k; [rewrite Hc|]; apply IH.
Qed.

Lemma skipn_takewhile (s : str) :
  skipn (List.length (takewhile p s)) s = dropwhile p s.
Proof.
  induction s as [|c s IH]; simpl; [reflexivity|].
  destruct (p c); simpl; [exact IH | reflexivity].
Qed.

Lemma dropwhile_length (s : str) :
  (List.length (dropwhile p s) <= List.length s)%nat.
Proof.
  induction s as [|c s IH]; simpl; [lia|]. destruct (p c); simpl; lia.
Qed.

(** Without [$] the greedy repetition takes the whole run. *)
Lemma match_plus_run (b : bool) (s : str) :
  match_plus {| caret := b; class := p; dollar := false |} s =
  match takewhile p s with
  | [] => None
  | m => Some m
  end.
Proof.
  induction s as [|c s IH]; simpl; [reflexivity|].
  destruct (p c); [|reflexivity].
  simpl in IH. rewrite IH. destruct (takewhile p s); reflexivity.
Qed.

Lemma runs_acc_run (acc : str) (l : str) :
  acc <> [] ->
  runs_acc p acc l = (rev acc ++ takewhile p l) :: runs_acc p [] (dropwhile p l).
Proof.
  revert acc; induction l as [|c l IH]; intros acc Hacc; simpl.
  - rewrite app_nil_r. destruct acc; [contradiction | reflexivity].
  - destruct (p c) eqn:Hc.
    + rewrite IH by discriminate. simpl. rewrite <- app_assoc. reflexivity.
    + rewrite app_nil_r. simpl. rewrite Hc.
      destruct acc; [contradiction | reflexivity].
Qed.

(** No constraint: the scan answers the maximal runs, left to right. *)
Lemma findall_runs (b : bool) (n : nat) (s : str) :
  (List.length s <= n)%nat ->
  scan {| caret := false; class := p; dollar := false |} 0 b s = maximal_runs p s.
Proof.
  unfold maximal_runs. revert b s; induction n as [|n IH]; intros b [|c s] Hn;
    try reflexivity; simpl in Hn; [lia|].
  cbn [scan caret andb].
  rewrite match_plus_run. simpl takewhile. simpl runs_acc.
  destruct (p c) eqn:Hc.
  - rewrite (runs_acc_run [c]) by discriminate. simpl. f_equal.
    rewrite Nat.sub_0_r, scan_skip, skipn_takewhile.
    apply IH. pose proof (dropwhile_length s). lia.
  - apply IH. lia.
Qed.

(** [^] alone: the run at position 0, if there is one. *)
Lemma findall_caret (s : str) :
  findall {| caret := true; class := p; dollar := false |} s =
  match takewhile p s with
  | [] => []
  | m => [m]
  end.
Proof.
  unfold findall. destruct s as [|c s]; [reflexivity|].
  cbn [scan caret andb negb]. rewrite match_plus_run.
  destruct (takewhile p (c :: s)); rewrite scan_caret_later; reflexivity.
Qed.

(** With [$] the match at a position exists when everything up to where
    [$] holds is of the class, and is all of it. *)
Lemma match_plus_dollar (b : bool) (s : str) :
  match_plus {| caret := b; class := p; dollar := true |} s =
  match before_final_newline p s with
  | [] => None
  | m => if forallb p m then Some m else None
  end.
Proof.
  induction s as [|c s IH]; [reflexivity|].
  cbn [match_plus class dollar andb] in *.
  destruct s as [|d s].
  - simpl. destruct (N.eqb_spec c 10) as [->|Hne]; simpl.
    + destruct (p 10%N) eqn:H10; simpl; rewrite ?H10; reflexivity.
    + destruct (p c) eqn:Hc; simpl; rewrite ?Hc; reflexivity.
  - change (before_final_newline p (c :: d :: s))
      with (c :: before_final_newline p (d :: s)).
    cbn [forallb]. destruct (p c) eqn:Hc; [|reflexivity].
    rewrite IH. cbn [andb].
    destruct (before_final_newline p (d :: s)) as [|x m] eqn:Hb.
    + destruct s as [|e s]; [|simpl in Hb; discriminate Hb].
      simpl in Hb. simpl at_dollar.
      destruct (N.eqb d 10); simpl in Hb |- *; [reflexivity | discriminate Hb].
    + destruct (forallb p (x :: m)) eqn:Hall; [reflexivity|].
      assert (Hd : at_dollar (d :: s) = false \/ p 10%N = false /\ d :: s = [10%N]).
      { destruct s as [|e s]; [|left; reflexivity].
        simpl. destruct (N.eqb_spec d 10) as [->|]; [|left; reflexivity].
        right. split; [|reflexivity].
        simpl in Hb. destruct (p 10%N) eqn:H10; [|reflexivity].
        simpl in Hb. injection Hb as <- <-. simpl in Hall. rewrite H10 in Hall.
        discriminate. }
      destruct Hd as [->|[H10 Heq]]; [reflexivity|].
      rewrite Heq in Hb. simpl in Hb. rewrite H10 in Hb. discriminate.
Qed.

Lemma before_final_newline_cons (c d : char) (s : str) :
  before_final_newline p (c :: d :: s) = c :: before_final_newline p (d :: s).
Proof. reflexivity. Qed.

(** [$] takes the end to be the end, or the final newline. *)
Lemma before_final_newline_cases (s : str) :
  before_final_newline p s = s
  \/ (s = before_final_newline p s ++ [10%N] /\ p 10%N = false).
Proof.
  induction s as [|c s IH]; [left; reflexivity|].
  destruct s as [|d s].
  - simpl. destruct (N.eqb_spec c 10) as [->|]; [|left; reflexivity].
    destruct (p 10%N); [left; reflexivity | right; split; reflexivity].
  - rewrite before_final_newline_cons.
    destruct IH as [->|[Heq H10]]; [left; reflexivity|].
    right. split; [|exact H10]. simpl. f_equal. exact Heq.
Qed.

(** The longest suffix of the class is the whole list when all of it is
    of the class. *)
Lemma end_run_all (l : str) : forallb p l = true -> end_run p l = l.
Proof.
  destruct l; [reflexivity|]. intros H. cbn [end_run]. rewrite H. reflexivity.
Qed.

(** What is left to scan after a match that reached where [$] holds
    has no further match. *)
Lemma scan_after_dollar (b : bool) (c : char) (s : str) :
  scan {| caret := b; class := p; dollar := true |}
    (List.length (before_final_newline p (c :: s)) - 1) false s = [].
Proof.
  destruct (before_final_newline_cases (c :: s)) as [->|[Heq H10]].
  - apply scan_exhausted. simpl. lia.
  - rewrite scan_skip.
    destruct (before_final_newline p (c :: s)) as [|x m].
    + injection Heq as -> ->. reflexivity.
    + injection Heq as -> ->.
      replace (List.length (x :: m) - 1)%nat with (List.length m) by (simpl; lia).
      rewrite skipn_app, skipn_all, Nat.sub_diag. simpl. rewrite H10.
      destruct b; reflexivity.
Qed.

(** [$] alone: the run that ends where [$] holds, if there is one. *)
Lemma findall_dollar (b : bool) (s : str) :
  scan {| caret := false; class := p; dollar := true |} 0 b s =
  match end_run p (before_final_newline p s) with
  | [] => []
  | m => [m]
  end.
Proof.
  revert b; induction s as [|c s IH]; intros b; [reflexivity|].
  cbn [scan caret andb]. rewrite match_plus_dollar.
  destruct (before_final_newline p (c :: s)) as [|x m] eqn:Hb.
  - destruct s as [|d s]; [reflexivity | discriminate Hb].
  - cbv zeta. destruct (forallb p (x :: m)) eqn:Hall.
    + rewrite (end_run_all _ Hall). f_equal.
      rewrite <- Hb. apply scan_after_dollar.
    + rewrite IH. destruct s as [|d s].
      * simpl in Hb.
        destruct (N.eqb c 10 && negb (p 10%N)); [discriminate Hb|].
        injection Hb as <- <-. cbn [end_run]. rewrite Hall. reflexivity.
      * rewrite before_final_newline_cons in Hb. rewrite <- Hb in Hall |- *.
        cbn [end_run]. rewrite Hall. reflexivity.
Qed.

(** [^] and [$]: the buffer up to where [$] holds, when all of it is of
    the class. *)
Lemma findall_caret_dollar (s : str) :
  findall {| caret := true; class := p; dollar := true |} s =
  match before_final_newline p s with
  | [] => []
  | m => if forallb p m then [m] else []
  end.
Proof.
  unfold findall. destruct s as [|c s]; [reflexivity|].
  cbn [scan caret andb negb]. rewrite match_plus_dollar.
  destruct (before_final_newline p (c :: s)) as [|x m]; [apply scan_caret_later; reflexivity|].
  cbv zeta. destruct (forallb p (x :: m)); rewrite scan_caret_later; reflexivity.
Qed.

End Scan.

(** X7 — what [detect_continuous_custom_chars] answers in each of the
    four settings of the two constraints: the maximal runs; the run at
    position 0; the run that ends where [$] holds; the buffer up to where
    [$] holds, if all of it is of the class. *)
Lemma detect_continuous_custom_chars_cases (buf custom : str) (sc ec : bool) :
  let p := base_chars custom in
  detect_continuous_custom_chars buf custom sc ec =
  match sc, ec with
  | false, false => maximal_runs p buf
  | true, false => match takewhile p buf with [] => [] | m => [m] end
  | false, true =>
      match end_run p (before_final_newline p buf) with [] => [] | m => [m] end
  | true, true =>
      match before_final_newline p buf with
      | [] => []
      | m => if forallb p m then [m] else []
      end
  end.
Proof.
  unfold detect_continuous_custom_chars. destruct sc, ec; cbn [andb].
  - apply findall_caret_dollar.
  - apply findall_caret.
  - apply findall_dollar.
  - apply (findall_runs _ true (List.length buf)). lia.
Qed.

(** On a buffer that does not end in a newline, [$] holds at its end
    only. *)
Lemma before_final_newline_no_newline (p : char -> bool) (buf : str) :
  (forall pre, buf <> pre ++ [10%N]) -> before_final_newline p buf = buf.
Proof.
  intros H. destruct (before_final_newline_cases p buf) as [|[Heq _]];
    [assumption|]. exfalso. exact (H _ Heq).
Qed.

(** The scenario of the specification. *)
Example detect_order :
  detect_continuous_custom_chars (py "order_A123-9!") (py "-_") false false
  = [py "order_A123-9"].
Proof. reflexivity. Qed.

Example detect_constraints :
  detect_continuous_custom_chars (py "ab cd ef") [] false false
    = [py "ab"; py "cd"; py "ef"]
  /\ detect_continuous_custom_chars (py "ab cd ef") [] true false = [py "ab"]
  /\ detect_continuous_custom_chars (py "ab cd ef") [] false true = [py "ef"]
  /\ detect_continuous_custom_chars (py "ab cd ef") [] true true = []
  /\ detect_continuous_custom_chars (py "abcdef") [] true true = [py "abcdef"].
Proof. repeat split. Qed.

(** C8 — [$] also holds just before a newline that ends the buffer.  On
    ["cd" + newline] the run ["cd"] stops one character short of the
    buffer's end, yet it is returned under [end_constraint], and under both
    constraints although the buffer is not one run. *)
Theorem end_constraint_before_final_newline :
  detect_continuous_custom_chars (py "cd" ++ [10%N]) [] false true = [py "cd"]
  /\ detect_continuous_custom_chars (py "cd" ++ [10%N]) [] true true = [py "cd"]
  /\ base_chars [] 10%N = false.
Proof. repeat split. Qed.

(** * Further properties *)

(** ** The steps of the normaliser *)

Lemma replace_delete (old : char) (l : str) :
  replace old [] l = filter (fun c => negb (N.eqb c old)) l.
Proof.
  induction l as [|x l IH]; simpl; [reflexivity|].
  destruct (N.eqb x old); simpl; rewrite IH; reflexivity.
Qed.

Lemma delete_each (chars l : str) :
  fold_left (fun text ch => replace ch [] text) chars l
  = filter (fun c => negb (mem c chars)) l.
Proof.
  revert l; induction chars as [|ch chars IH]; intros l; simpl.
  - induction l as [|x l IHl]; simpl; [reflexivity | f_equal; exact IHl].
  - rewrite IH, replace_delete. clear IH.
    induction l as [|x l IHl]; simpl; [reflexivity|].
    destruct (N.eqb x ch); simpl; [exact IHl|].
    destruct (mem x chars); simpl; [exact IHl | f_equal; exact IHl].
Qed.

(** X1 — [remove_invisible_chars] is one filter: it deletes exactly the
    nine invisible code points and the ASCII controls, and keeps every
    other character, in order. *)
Theorem remove_invisible_chars_filter (buf : str) :
  remove_invisible_chars buf
  = filter (fun c => negb (mem c invisible_chars) && negb (is_ascii_control c)) buf.
Proof.
  unfold remove_invisible_chars. rewrite delete_each.
  induction buf as [|x l IH]; [reflexivity|].
  cbn [filter]. destruct (mem x invisible_chars); cbn [negb andb filter].
  - exact IH.
  - destruct (is_ascii_control x); cbn [negb]; [exact IH | f_equal; exact IH].
Qed.

(** X2 — [remove_non_breaking_spaces] is one filter: it deletes U+00A0,
    U+2007 and U+202F and keeps every other character, in order. *)
Theorem remove_non_breaking_spaces_filter (buf : str) :
  remove_non_breaking_spaces buf
  = filter (fun c => negb (mem c [0x00A0; 0x2007; 0x202F]%N)) buf.
Proof.
  unfold remove_non_breaking_spaces.
  change (replace 0x202F [] (replace 0x2007 [] (replace 0x00A0 [] buf)))
    with (fold_left (fun text ch => replace ch [] text)
            [0x00A0; 0x2007; 0x202F]%N buf).
  apply delete_each.
Qed.

Lemma replace_by_one (old new : char) (l : str) :
  replace old [new] l = map (fun c => if N.eqb c old then new else c) l.
Proof.
  induction l as [|x l IH]; simpl; [reflexivity|].
  rewrite IH. destruct (N.eqb x old); reflexivity.
Qed.

Lemma replace_each_by_one (chars : str) (new : char) (l : str) :
  fold_left (fun text ch => replace ch [new] text) chars l
  = map (fun c => if mem c chars then new else c) l.
Proof.
  revert l; induction chars as [|ch chars IH]; intros l; simpl.
  - symmetry. apply map_id.
  - rewrite IH, replace_by_one, map_map. apply map_ext. intros c.
    destruct (N.eqb c ch); simpl; [|reflexivity].
    destruct (mem new chars); reflexivity.
Qed.

(** X3 — [normalize_spaces] works character by character: each of the
    sixteen space variants becomes U+0020, every other character stays, so
    the length is kept. *)
Theorem normalize_spaces_map (buf : str) :
  normalize_spaces buf = map (fun c => if mem c space_chars then SP else c) buf
  /\ List.length (normalize_spaces buf) = List.length buf.
Proof.
  assert (H : normalize_spaces buf
              = map (fun c => if mem c space_chars then SP else c) buf)
    by apply replace_each_by_one.
  split; [exact H|]. rewrite H. apply length_map.
Qed.

(** X4 — [collapse_spaces] leaves no two spaces in a row, touches no
    other character, and changes nothing when applied again. *)
Theorem collapse_spaces_properties (buf : str) :
  no_double_space (collapse_spaces buf)
  /\ filter (fun c => negb (N.eqb c SP)) (collapse_spaces buf)
     = filter (fun c => negb (N.eqb c SP)) buf
  /\ collapse_spaces (collapse_spaces buf) = collapse_spaces buf.
Proof.
  split; [apply spaced_iff, collapse_spaces_spaced|].
  split; [|apply collapse_spaces_fixed, collapse_spaces_spaced].
  induction buf as [|x l IH]; [reflexivity|].
  rewrite collapse_spaces_cons. cbn [filter].
  destruct (N.eqb x SP) eqn:Hx; cbn [negb].
  - destruct l as [|y l]; [simpl; rewrite Hx; reflexivity|].
    destruct (N.eqb y SP); [exact IH|].
    cbn [filter]. rewrite Hx. exact IH.
  - cbn [filter]. rewrite Hx. cbn [negb]. f_equal. exact IH.
Qed.

Section NormalForm.
Context {U : Unicode}.

(** X5 — whatever the Unicode tables, the result of [process] holds none
    of the invisible code points, no ASCII control and none of the space
    variants. *)
Theorem process_has_no_invisible (s : str) (c : char) :
  In c (process s) ->
  mem c invisible_chars = false
  /\ is_ascii_control c = false
  /\ mem c space_chars = false.
Proof.
  intros Hin. pose proof (process_plain s) as Hp.
  rewrite Forall_forall in Hp. destruct (Hp c Hin) as [Hi [Hc Hs]].
  assert (Hmem : forall chars, ~ In c chars -> mem c chars = false).
  { intros chars Hn. unfold mem. destruct (existsb (N.eqb c) chars) eqn:He;
      [|reflexivity].
    apply existsb_exists in He. destruct He as [x [Hx Heq]].
    apply N.eqb_eq in Heq. subst x. contradiction. }
  split; [apply Hmem; exact Hi|]. split; [exact Hc | apply Hmem; exact Hs].
Qed.

(** X6 — whatever the Unicode tables, the result of [process] has no two
    spaces in a row and neither starts nor ends with a whitespace
    character. *)
Theorem process_is_trimmed (s : str) :
  no_double_space (process s)
  /\ (forall c r, process s = c :: r -> isspace c = false)
  /\ (forall r c, process s = r ++ [c] -> isspace c = false).
Proof.
  split; [apply spaced_iff, process_spaced|].
  unfold process.
  set (t := collapse_spaces _).
  split.
  - intros c r H.
    pose proof (rstrip_clean_head (dropwhile isspace t) (dropwhile_clean_head t)) as Hc.
    fold (strip t) in Hc. rewrite H in Hc. exact Hc.
  - intros r c H.
    pose proof (dropwhile_clean_head (rev (dropwhile isspace t))) as Hc.
    unfold strip in H. apply (f_equal (@rev char)) in H.
    rewrite rev_involutive, rev_app_distr in H.
    change (rev [c] ++ rev r) with (c :: rev r) in H.
    rewrite H in Hc. exact Hc.
Qed.

End NormalForm.

(** ** The scanner *)

Section ScanResults.
Variable P : pattern.

Lemma match_plus_prefix (s m : str) :
  match_plus P s = Some m ->
  m <> [] /\ forallb (class P) m = true /\ exists post, s = m ++ post.
Proof.
  revert m; induction s as [|c s IH]; intros m; simpl; [discriminate|].
  destruct (class P c) eqn:Hc; [|discriminate].
  destruct (match_plus P s) as [m'|].
  - intros [= <-]. destruct (IH m' eq_refl) as [_ [Hall [post ->]]].
    split; [discriminate|]. split; [simpl; rewrite Hc; exact Hall|].
    exists post. reflexivity.
  - destruct (dollar P && negb (at_dollar s)); [discriminate|].
    intros [= <-]. split; [discriminate|]. split; [simpl; rewrite Hc; reflexivity|].
    exists s. reflexivity.
Qed.

Lemma scan_results (k : nat) (b : bool) (s m : str) :
  In m (scan P k b s) ->
  m <> [] /\ forallb (class P) m = true /\ exists pre post, s = pre ++ m ++ post.
Proof.
  revert k b; induction s as [|c s IH]; intros k b; [simpl; tauto|].
  cbn [scan].
  assert (Hrec : forall k' b', In m (scan P k' b' s) ->
            m <> [] /\ forallb (class P) m = true
            /\ exists pre post, c :: s = pre ++ m ++ post).
  { intros k' b' H. destruct (IH _ _ H) as [H1 [H2 [pre [post ->]]]].
    split; [exact H1|]. split; [exact H2|]. exists (c :: pre), post. reflexivity. }
  destruct k as [|k]; [|apply Hrec].
  destruct (if caret P && negb b then None else match_plus P (c :: s)) as [m'|] eqn:Hm;
    [|apply Hrec].
  intros [<-|H]; [|exact (Hrec _ _ H)].
  destruct (caret P && negb b); [discriminate|].
  destruct (match_plus_prefix _ _ Hm) as [H1 [H2 [post Hpost]]].
  split; [exact H1|]. split; [exact H2|]. exists [], post. exact Hpost.
Qed.

End ScanResults.

(** Whatever the constraints, the scanner runs one pattern over the
    class of the custom characters. *)
Lemma detect_continuous_custom_chars_scan (buf custom : str) (sc ec : bool)
    (m : str) :
  In m (detect_continuous_custom_chars buf custom sc ec) ->
  exists P, class P = base_chars custom /\ In m (scan P 0 true buf).
Proof.
  unfold detect_continuous_custom_chars, findall. intros H.
  destruct sc, ec; cbn [andb] in H; eexists; (split; [|exact H]); reflexivity.
Qed.

(** X8 — under every setting of the constraints, each text that
    [detect_continuous_custom_chars] returns is non-empty, made of
    characters of the class only, and occurs in the buffer. *)
Theorem detect_continuous_custom_chars_sound (buf custom : str) (sc ec : bool)
    (m : str) :
  In m (detect_continuous_custom_chars buf custom sc ec) ->
  m <> [] /\ forallb (base_chars custom) m = true /\ contains buf m = true.
Proof.
  intros H.
  destruct (detect_continuous_custom_chars_scan _ _ _ _ _ H) as [P [Hc Hin]].
  destruct (scan_results P _ _ _ _ Hin) as [H1 [H2 Hocc]].
  rewrite Hc in H2. split; [exact H1|]. split; [exact H2|].
  apply contains_iff. exact Hocc.
Qed.

Lemma concat_runs_acc (p : char -> bool) (acc l : str) :
  List.concat (runs_acc p acc l) = rev acc ++ filter p l.
Proof.
  revert acc; induction l as [|c l IH]; intros acc; simpl.
  - destruct acc; [reflexivity|]. simpl. rewrite !app_nil_r. reflexivity.
  - destruct (p c).
    + rewrite IH. simpl. rewrite <- app_assoc. reflexivity.
    + destruct acc; [apply IH|]. cbn [List.concat]. rewrite IH. reflexivity.
Qed.

(** X9 — the runs that [detect_continuous_english] and
    [detect_continuous_alphanumeric] return, put end to end, are the
    letters (letters and digits) of the buffer in order: no character of
    the class is lost, none is returned twice. *)
Theorem detect_continuous_concat (buf : str) :
  List.concat (detect_continuous_english buf) = filter ascii_letter buf
  /\ List.concat (detect_continuous_alphanumeric buf) = filter (base_chars []) buf.
Proof.
  unfold detect_continuous_english, detect_continuous_alphanumeric, findall.
  rewrite !(findall_runs _ true (List.length buf)) by lia.
  unfold maximal_runs. rewrite !concat_runs_acc. split; reflexivity.
Qed.

(** X10 — [is_alphanumeric] (a full match) and the scanner under both
    constraints agree: the text is alphanumeric exactly when the scanner
    returns the text itself as its only run. *)
Theorem is_alphanumeric_iff_detect (buf : str) :
  is_alphanumeric buf = true
  <-> detect_continuous_custom_chars buf [] true true = [buf].
Proof.
  unfold detect_continuous_custom_chars. cbn [andb].
  rewrite findall_caret_dollar. cbv zeta.
  destruct (before_final_newline_cases (base_chars []) buf) as [Heq|[Heq H10]].
  - rewrite Heq. unfold is_alphanumeric. destruct buf as [|c l].
    + split; discriminate.
    + cbv zeta. destruct (forallb (base_chars []) (c :: l)); split; intros H;
        try reflexivity; discriminate H.
  - split.
    + intros Ha. exfalso.
      assert (Hall : forallb (base_chars []) buf = true)
        by (destruct buf; [discriminate Ha | exact Ha]).
      assert (Hall' : forallb (base_chars [])
                        (before_final_newline (base_chars []) buf ++ [10%N]) = true)
        by (rewrite <- Heq; exact Hall).
      rewrite forallb_app in Hall'. cbn [forallb] in Hall'.
      rewrite H10, andb_false_r in Hall'. discriminate Hall'.
    + intros Hd. exfalso.
      assert (Hl : List.length (before_final_newline (base_chars []) buf)
                   = List.length buf).
      { destruct (before_final_newline (base_chars []) buf) as [|x m];
          [discriminate|].
        destruct (forallb (base_chars []) (x :: m)); [|discriminate].
        injection Hd as Hd. rewrite Hd. reflexivity. }
      apply (f_equal (@List.length char)) in Heq.
      rewrite length_app in Heq. simpl in Heq. lia.
Qed.

(** ** The expander *)

Section Loops.
Variables (allowed : char -> bool) (forbidden : option (char -> bool)).

Let ok (c : char) : bool := allowed c && negb (violates forbidden c).

Lemma firstn_S_nth (l : str) (i : nat) (c : char) :
  nth_error l i = Some c -> firstn (S i) l = firstn i l ++ [c].
Proof.
  revert i; induction l as [|x l IH]; intros [|i]; simpl; try discriminate.
  - intros [= ->]. reflexivity.
  - intros H. f_equal. apply IH. exact H.
Qed.

(** The leftward loop walks down the run of takable characters that ends
    at [p]. *)
Lemma expand_left_takewhile (buf : str) (p : nat) :
  (p <= List.length buf)%nat ->
  expand_left allowed forbidden buf p
  = (p - List.length (takewhile ok (rev (firstn p buf))))%nat.
Proof.
  induction p as [|i IH]; intros Hp; [reflexivity|].
  cbn [expand_left].
  destruct (nth_error buf i) as [c|] eqn:Hc.
  2: { apply nth_error_None in Hc. lia. }
  rewrite (firstn_S_nth _ _ _ Hc), rev_app_distr. cbn [rev app takewhile].
  unfold ok at 1. destruct (allowed c); cbn [andb]; [|simpl; lia].
  destruct (violates forbidden c); cbn [negb]; [simpl; lia|].
  rewrite IH by lia. simpl. lia.
Qed.

(** The rightward loop walks up the run of takable characters that starts
    at [e]. *)
Lemma expand_right_takewhile (rest : str) (e : nat) :
  expand_right allowed forbidden rest e
  = (e + List.length (takewhile ok rest))%nat.
Proof.
  revert e; induction rest as [|c rest IH]; intros e; simpl; [lia|].
  unfold ok at 1. destruct (allowed c); cbn [andb]; [|simpl; lia].
  destruct (violates forbidden c); cbn [negb]; [simpl; lia|].
  rewrite IH. simpl. lia.
Qed.

End Loops.

Lemma takewhile_ext (f g : char -> bool) :
  (forall c, f c = g c) -> forall l, takewhile f l = takewhile g l.
Proof.
  intros H l. induction l as [|c l IH]; simpl; [reflexivity|].
  rewrite H, IH. reflexivity.
Qed.

Lemma takewhile_length (p : char -> bool) (l : str) :
  (List.length (takewhile p l) <= List.length l)%nat.
Proof.
  induction l as [|c l IH]; simpl; [lia|]. destruct (p c); simpl; lia.
Qed.

Lemma firstn_takewhile (p : char -> bool) (l : str) :
  firstn (List.length (takewhile p l)) l = takewhile p l.
Proof.
  induction l as [|c l IH]; simpl; [reflexivity|].
  destruct (p c); simpl; [f_equal; exact IH | reflexivity].
Qed.

(** The slice that ends at [p] and holds the last [n] characters of
    [buf[:p]], where [n] is the length of a run read backwards from [p]. *)
Lemma slice_backward_run (ok : char -> bool) (buf : str) (p : nat) :
  (p <= List.length buf)%nat ->
  slice buf (p - List.length (takewhile ok (rev (firstn p buf)))) p
  = rev (takewhile ok (rev (firstn p buf))).
Proof.
  intros Hp. set (F := firstn p buf).
  assert (HF : List.length F = p) by (apply firstn_length_le; exact Hp).
  set (T := takewhile ok (rev F)).
  assert (HT : (List.length T <= p)%nat).
  { pose proof (takewhile_length ok (rev F)) as H. rewrite length_rev in H.
    fold T in H. lia. }
  unfold slice.
  replace (p - (p - List.length T))%nat with (List.length T) by lia.
  rewrite firstn_skipn_comm.
  replace (p - List.length T + List.length T)%nat with p by lia.
  fold F.
  pose proof (takewhile_dropwhile ok (rev F)) as Hsplit. fold T in Hsplit.
  apply (f_equal (@rev char)) in Hsplit.
  rewrite rev_involutive, rev_app_distr in Hsplit.
  rewrite <- Hsplit at 1.
  assert (Hlen : List.length (rev (dropwhile ok (rev F))) = (p - List.length T)%nat).
  { apply (f_equal (@List.length char)) in Hsplit.
    rewrite length_app, length_rev, HF in Hsplit.
    rewrite length_rev. rewrite length_rev in Hsplit. lia. }
  rewrite <- Hlen, skipn_app, skipn_all, Nat.sub_diag. reflexivity.
Qed.

(** X11 — the shape of an expansion: the occurrence found first, with
    before it the run of takable characters that ends there and after it
    the run that starts there; takable to the left are the characters of
    the class not in [forbidden_start_chars], to the right those not in
    [forbidden_end_chars]. *)
Theorem expand_substring_shape (buf sub custom fs fe : str) (p : nat) :
  find buf sub = Some p ->
  expand_substring buf sub custom fs fe
  = rev (takewhile (takes custom fs) (rev (firstn p buf)))
    ++ sub
    ++ takewhile (takes custom fe) (skipn (p + List.length sub) buf).
Proof.
  intros Hf. pose proof (find_bound _ _ _ Hf) as Hb.
  assert (Hext : forall chars c,
            base_chars custom c && negb (violates (forbidden_pattern chars) c)
            = takes custom chars c).
  { intros chars c. rewrite violates_forbidden_pattern. reflexivity. }
  unfold expand_substring, expand_bounds. rewrite Hf.
  rewrite expand_left_takewhile by lia. rewrite expand_right_takewhile.
  rewrite (takewhile_ext _ _ (Hext fs)), (takewhile_ext _ _ (Hext fe)).
  set (L := takewhile (takes custom fs) (rev (firstn p buf))).
  set (R := takewhile (takes custom fe) (skipn (p + List.length sub) buf)).
  assert (HL : (List.length L <= p)%nat).
  { pose proof (takewhile_length (takes custom fs) (rev (firstn p buf))) as H.
    rewrite length_rev, firstn_length_le in H by lia. exact H. }
  assert (HR : (p + List.length sub + List.length R <= List.length buf)%nat).
  { pose proof (takewhile_length (takes custom fe) (skipn (p + List.length sub) buf)) as H.
    rewrite length_skipn in H. fold R in H. lia. }
  rewrite (slice_split buf _ p (p + List.length sub) _) by lia.
  rewrite (slice_occurrence _ _ _ Hf).
  unfold L at 1. rewrite slice_backward_run by lia. fold L.
  f_equal. f_equal. unfold slice.
  replace (p + List.length sub + List.length R - (p + List.length sub))%nat
    with (List.length R) by lia.
  apply firstn_takewhile.
Qed.

Lemma expand_substring_shape_witness :
  expand_substring (py "a-bc1-d") (py "c") (py "-") (py "-") (py "-")
  = rev (takewhile (takes (py "-") (py "-")) (rev (firstn 3 (py "a-bc1-d"))))
    ++ py "c"
    ++ takewhile (takes (py "-") (py "-")) (skipn (3 + 1) (py "a-bc1-d")).
Proof.
  apply (expand_substring_shape (py "a-bc1-d") (py "c") (py "-") (py "-") (py "-") 3).
  reflexivity.
Defined.

(** X12 — the empty cases of [expand_substring]: the empty substring is
    found at index 0 and grows into the leading run of takable characters
    of the buffer; in the empty buffer every substring comes back as it
    is. *)
Theorem expand_substring_empty (buf sub custom fs fe : str) :
  expand_substring buf [] custom fs fe = takewhile (takes custom fe) buf
  /\ expand_substring [] sub custom fs fe = sub.
Proof.
  split.
  - assert (Hf : find buf [] = Some 0%nat) by (destruct buf; reflexivity).
    unfold expand_substring, expand_bounds. rewrite Hf.
    cbn [expand_left List.length Nat.add skipn].
    rewrite expand_right_takewhile. unfold slice.
    rewrite Nat.sub_0_r. cbn [Nat.add skipn].
    rewrite (takewhile_ext _ (takes custom fe)).
    + apply firstn_takewhile.
    + intros c. rewrite violates_forbidden_pattern. reflexivity.
  - destruct sub as [|c sub]; reflexivity.
Qed.

Section Stops.
Variable allowed : char -> bool.

(** Without forbidden characters the leftward loop stops at the start of
    the buffer or below a character that is not of the class. *)
Lemma expand_left_stop (buf : str) (p : nat) :
  (p <= List.length buf)%nat ->
  let s := expand_left allowed None buf p in
  s = 0%nat \/ exists c, nth_error buf (s - 1) = Some c /\ allowed c = false.
Proof.
  induction p as [|i IH]; intros Hp; [left; reflexivity|].
  cbn [expand_left].
  destruct (nth_error buf i) as [c|] eqn:Hc.
  2: { apply nth_error_None in Hc. lia. }
  destruct (allowed c) eqn:Ha.
  - cbn [violates]. apply IH. lia.
  - right. exists c. replace (S i - 1)%nat with i by lia. auto.
Qed.

Lemma expand_right_stop (rest : str) (e : nat) :
  let k := (expand_right allowed None rest e - e)%nat in
  nth_error rest k = None
  \/ exists c, nth_error rest k = Some c /\ allowed c = false.
Proof.
  revert e; induction rest as [|c rest IH]; intros e; cbn [expand_right].
  - left. destruct (e - e)%nat; reflexivity.
  - destruct (allowed c) eqn:Ha; cbn [violates].
    + pose proof (expand_right_bounds allowed None rest (S e)) as Hb.
      replace (expand_right allowed None rest (S e) - e)%nat
        with (S (expand_right allowed None rest (S e) - S e)) by lia.
      apply IH.
    + right. exists c. rewrite Nat.sub_diag. auto.
Qed.

End Stops.

Lemma index_of_nat (buf : str) (i : nat) (c : char) :
  nth_error buf i = Some c -> index buf (Z.of_nat i) = Ok c.
Proof.
  intros H. assert (Hi : (i < List.length buf)%nat)
    by (apply nth_error_Some; congruence).
  assert (H0 : (Z.of_nat i <? 0)%Z = false) by (apply Z.ltb_ge; lia).
  assert (H1 : (Z.of_nat (List.length buf) <=? Z.of_nat i)%Z = false)
    by (apply Z.leb_gt; lia).
  unfold index, len. cbv zeta. rewrite H0. cbv beta iota. rewrite H0, H1.
  cbn [orb]. rewrite Nat2Z.id, H. reflexivity.
Qed.

(** X13 — an expansion made without forbidden characters is a whole
    token: at the bounds it reaches, [is_substring_surrounded_by_non_custom]
    answers True, without raising. *)
Theorem expansion_is_surrounded (buf sub custom : str) (s e : nat) :
  expand_bounds buf sub custom [] [] = Some (s, e) ->
  is_substring_surrounded_by_non_custom buf (Z.of_nat s) (Z.of_nat e) custom
  = Ok true.
Proof.
  unfold expand_bounds.
  destruct (find buf sub) as [p|] eqn:Hf; [|discriminate].
  pose proof (find_bound _ _ _ Hf) as Hb.
  cbn [forbidden_pattern]. intros [= Hs He].
  pose proof (expand_left_stop (base_chars custom) buf p) as Hl.
  pose proof (expand_right_stop (base_chars custom)
                (skipn (p + List.length sub) buf) (p + List.length sub)) as Hr.
  pose proof (expand_right_bounds (base_chars custom) None
                (skipn (p + List.length sub) buf) (p + List.length sub)) as Hrb.
  cbv zeta in Hl, Hr. rewrite Hs in Hl. rewrite He in Hr, Hrb.
  rewrite length_skipn in Hrb.
  rewrite nth_error_skipn in Hr.
  replace (p + List.length sub + (e - (p + List.length sub)))%nat with e in Hr by lia.
  unfold is_substring_surrounded_by_non_custom.
  assert (Hleft : (if (Z.of_nat s =? 0)%Z then Ok true
                   else c <- index buf (Z.of_nat s - 1) ;;
                        Ok (negb (base_chars custom c)))
                  = @Ok IndexError bool true).
  { destruct Hl as [->|[c [Hc Ha]]]; [lia | reflexivity |].
    destruct (Z.eqb_spec (Z.of_nat s) 0); [reflexivity|].
    replace (Z.of_nat s - 1)%Z with (Z.of_nat (s - 1)) by lia.
    rewrite (index_of_nat _ _ _ Hc). cbn [bind]. rewrite Ha. reflexivity. }
  rewrite Hleft. cbn [bind].
  assert (Hright : (if (Z.of_nat e =? len buf)%Z then Ok true
                    else c <- index buf (Z.of_nat e) ;;
                         Ok (negb (base_chars custom c)))
                   = @Ok IndexError bool true).
  { unfold len. destruct (Z.eqb_spec (Z.of_nat e) (Z.of_nat (List.length buf)));
      [reflexivity|].
    destruct Hr as [Hn|[c [Hc Ha]]].
    - apply nth_error_None in Hn. lia.
    - rewrite (index_of_nat _ _ _ Hc). cbn [bind]. rewrite Ha. reflexivity. }
  rewrite Hright. reflexivity.
Qed.

Lemma expansion_is_surrounded_witness :
  is_substring_surrounded_by_non_custom (py "id: x-42b.") 4 9 (py "-") = Ok true.
Proof.
  apply (expansion_is_surrounded (py "id: x-42b.") (py "42") (py "-") 4 9).
  reflexivity.
Defined.

Lemma index_cases (buf : str) (i : Z) :
  ((- len buf <= i < len buf)%Z /\ exists c, index buf i = Ok c)
  \/ (~ (- len buf <= i < len buf)%Z /\ index buf i = Raise string_index_out_of_range).
Proof.
  unfold index, len.
  set (n := Z.of_nat (List.length buf)). cbv zeta.
  destruct (Z.ltb_spec i 0) as [Hneg|Hpos]; cbv beta iota.
  - destruct (Z.ltb_spec (i + n) 0); cbn [orb]; [right; split; [lia | reflexivity]|].
    destruct (Z.leb_spec n (i + n)); [lia|].
    destruct (nth_error buf (Z.to_nat (i + n))) as [c|] eqn:Hc.
    + left. split; [lia | eauto].
    + apply nth_error_None in Hc. lia.
  - destruct (Z.ltb_spec i 0); [lia|]. cbn [orb].
    destruct (Z.leb_spec n i); [right; split; [lia | reflexivity]|].
    destruct (nth_error buf (Z.to_nat i)) as [c|] eqn:Hc.
    + left. split; [lia | eauto].
    + apply nth_error_None in Hc. lia.
Qed.

(** X14 — when the boundary check answers and when it raises: it
    answers exactly for [start = 0] or [-len < start <= len], together with
    [-len <= end <= len] (a negative index is read from the end of the
    text); for every other pair it raises IndexError. *)
Theorem is_substring_surrounded_by_non_custom_defined (buf : str) (start end_ : Z)
    (custom : str) :
  let n := len buf in
  ((start = 0 \/ - n < start <= n)%Z /\ (- n <= end_ <= n)%Z ->
   exists b, is_substring_surrounded_by_non_custom buf start end_ custom = Ok b)
  /\ (~ ((start = 0 \/ - n < start <= n)%Z /\ (- n <= end_ <= n)%Z) ->
      is_substring_surrounded_by_non_custom buf start end_ custom
      = Raise string_index_out_of_range).
Proof.
  intros n. unfold is_substring_surrounded_by_non_custom. fold n.
  destruct (Z.eqb_spec start 0) as [Hs0|Hs0];
    destruct (Z.eqb_spec end_ n) as [He|He]; cbn [bind].
  - split; [eauto|]. intros H. exfalso. apply H. unfold n, len in *. lia.
  - destruct (index_cases buf end_) as [[Hr [c ->]]|[Hr ->]]; fold n in Hr;
      cbn [bind]; (split; [intros H; try (exfalso; lia); eauto |
                           intros H; try reflexivity; exfalso; apply H; lia]).
  - destruct (index_cases buf (start - 1)) as [[Hr [c ->]]|[Hr ->]]; fold n in Hr;
      cbn [bind]; (split; [intros H; try (exfalso; lia); eauto |
                           intros H; try reflexivity; exfalso; apply H;
                           unfold n, len in *; lia]).
  - destruct (index_cases buf (start - 1)) as [[Hr [c ->]]|[Hr ->]]; fold n in Hr;
      cbn [bind].
    + destruct (index_cases buf end_) as [[Hr' [d ->]]|[Hr' ->]]; fold n in Hr';
        cbn [bind]; (split; [intros H; try (exfalso; lia); eauto |
                             intros H; try reflexivity; exfalso; apply H; lia]).
    + split; [intros H; exfalso; lia | reflexivity].
Qed.

Lemma is_substring_surrounded_by_non_custom_defined_witness :
  (exists b, is_substring_surrounded_by_non_custom (py "ab cd") 3 5 [] = Ok b)
  /\ is_substring_surrounded_by_non_custom (py "ab cd") 3 6 []
     = Raise string_index_out_of_range.
Proof.
  split.
  - apply (is_substring_surrounded_by_non_custom_defined (py "ab cd") 3 5 []).
    unfold len; simpl; lia.
  - apply (is_substring_surrounded_by_non_custom_defined (py "ab cd") 3 6 []).
    unfold len; simpl; lia.
Defined.

(** ** The resolver *)

(** X15 — no veto without an overlap: when the interval located for the
    expanded text meets the interval of no candidate that differs from the
    span, [expand_entity_without_overlap] returns the expanded text.
    Candidates equal to the span, the span itself included, never veto. *)
Theorem no_overlap_no_veto (query : str) (entity : Span) (all_entities : list Span)
    (custom fs fe : str) :
  (let expanded_text := expand_substring query (text entity) custom fs fe in
   let expanded_start := find_z query expanded_text in
   let expanded_end := (expanded_start + len expanded_text)%Z in
   forall other, In other all_entities -> other <> entity ->
     overlaps expanded_start expanded_end (start_index other, end_index other) = false) ->
  expand_entity_without_overlap query entity all_entities custom fs fe
  = expand_substring query (text entity) custom fs fe.
Proof.
  cbv zeta. intros H. unfold expand_entity_without_overlap.
  match goal with |- (if ?b then _ else _) = _ => destruct b eqn:Hb end;
    [|reflexivity].
  exfalso. apply existsb_exists in Hb. destruct Hb as [[s e] [Hin Hov]].
  apply in_map_iff in Hin. destruct Hin as [other [[= <- <-] Hin]].
  apply filter_In in Hin. destruct Hin as [Hin Hne].
  rewrite (H other Hin) in Hov; [discriminate|].
  intros ->. rewrite (proj2 (span_eqb_eq entity entity) eq_refl) in Hne.
  discriminate.
Qed.

Lemma no_overlap_no_veto_witness :
  expand_entity_without_overlap (py "AB_CD") span_AB [span_AB; span_AB] (py "_") [] []
  = expand_substring (py "AB_CD") (py "AB") (py "_") [] [].
Proof.
  apply (no_overlap_no_veto (py "AB_CD") span_AB [span_AB; span_AB] (py "_") [] []).
  cbv zeta. intros other Hin Hne. simpl in Hin.
  destruct Hin as [H|[H|H]]; [symmetry in H; contradiction | symmetry in H; contradiction | contradiction].
Defined.

(** X16 — every span of [detect_potential_entities] is well formed: it
    is typed DETECTED, its text is not empty, its indices are within the
    query with [start_index < end_index], and the query holds the text at
    these indices.  The indices are those of the first place where the text
    occurs in the query, which need not be where the run was read. *)
Theorem detect_potential_entities_spans (query custom : str) (sc ec : bool)
    (span : Span) :
  In span (detect_potential_entities query custom sc ec) ->
  type span = Some DETECTED
  /\ text span <> []
  /\ exists i,
       start_index span = Z.of_nat i
       /\ end_index span = Z.of_nat (i + List.length (text span))
       /\ (i + List.length (text span) <= List.length query)%nat
       /\ slice query i (i + List.length (text span)) = text span
       /\ (forall pre post, query = pre ++ text span ++ post ->
           (i <= List.length pre)%nat).
Proof.
  unfold detect_potential_entities. intros H.
  apply in_map_iff in H. destruct H as [m [<- Hm]].
  destruct (detect_continuous_custom_chars_scan _ _ _ _ _ Hm) as [P [_ Hin]].
  destruct (scan_results P _ _ _ _ Hin) as [Hne [_ Hocc]].
  apply contains_iff in Hocc. rename Hocc into Hc.
  cbn [type text start_index end_index].
  split; [reflexivity|]. split; [exact Hne|].
  unfold contains in Hc. unfold find_z.
  destruct (find query m) as [i|] eqn:Hf; [|discriminate].
  exists i. split; [reflexivity|]. split; [unfold len; lia|].
  split; [exact (find_bound _ _ _ Hf)|].
  split; [exact (slice_occurrence _ _ _ Hf)|].
  intros pre post Hq. destruct (find_complete pre m post) as [j [Hj Hle]].
  rewrite <- Hq, Hf in Hj. injection Hj as ->. exact Hle.
Qed.

Lemma detect_potential_entities_spans_witness :
  let span := {| text := py "a"; start_index := 0; end_index := 1;
                 type := Some DETECTED |} in
  type span = Some DETECTED
  /\ text span <> []
  /\ exists i,
       start_index span = Z.of_nat i
       /\ end_index span = Z.of_nat (i + List.length (text span))
       /\ (i + List.length (text span) <= List.length (py "ab a"))%nat
       /\ slice (py "ab a") i (i + List.length (text span)) = text span
       /\ (forall pre post, py "ab a" = pre ++ text span ++ post ->
           (i <= List.length pre)%nat).
Proof.
  apply (detect_potential_entities_spans (py "ab a") [] false false).
  right. left. reflexivity.
Defined.

Lemma startswith_takewhile (p : char -> bool) (l : str) :
  startswith l (takewhile p l) = true.
Proof.
  apply startswith_app. exists (dropwhile p l).
  symmetry. apply takewhile_dropwhile.
Qed.

(** X17 — under [start_constraint] alone the scanner path has at most
    one candidate: the run of class characters that starts the query, at
    indices 0 to its length. *)
Theorem detect_potential_entities_start (query custom : str) :
  detect_potential_entities query custom true false =
  match takewhile (base_chars custom) query with
  | [] => []
  | m => [ {| text := m; start_index := 0; end_index := len m;
              type := Some DETECTED |} ]
  end.
Proof.
  unfold detect_potential_entities, detect_continuous_custom_chars.
  cbn [andb]. rewrite findall_caret.
  pose proof (startswith_takewhile (base_chars custom) query) as Hs.
  destruct (takewhile (base_chars custom) query) as [|c m]; [reflexivity|].
  cbn [map]. unfold find_z. destruct query as [|q query]; [discriminate Hs|].
  cbn [find]. rewrite Hs. reflexivity.
Qed.

(** *** Sorting the recognizer's entities *)

Lemma insert_by_start_perm (x : Span) (l : list Span) :
  Permutation (x :: l) (insert_by_start x l).
Proof.
  induction l as [|y l IH]; simpl; [apply Permutation_refl|].
  destruct (start_index x <=? start_index y)%Z; [apply Permutation_refl|].
  eapply perm_trans; [apply perm_swap|]. apply perm_skip. exact IH.
Qed.

Lemma insert_by_start_sorted (x : Span) (l : list Span) :
  StronglySorted by_start l -> StronglySorted by_start (insert_by_start x l).
Proof.
  induction 1 as [|y l Hl IH Hy]; simpl.
  - constructor; constructor.
  - destruct (Z.leb_spec (start_index x) (start_index y)) as [Hle|Hgt].
    + constructor; [constructor; assumption|].
      constructor; [exact Hle|].
      eapply Forall_impl; [|exact Hy]. unfold by_start. intros a Ha. lia.
    + constructor; [exact IH|].
      apply (Permutation_Forall (insert_by_start_perm x l)).
      constructor; [unfold by_start; lia | exact Hy].
Qed.

Lemma sort_by_start_sorted (l : list Span) :
  StronglySorted by_start (sort_by_start l).
Proof.
  induction l as [|x l IH]; simpl; [constructor|].
  apply insert_by_start_sorted. exact IH.
Qed.

(** X18 — [sort_by_start] returns the same spans, each as often as
    before, in ascending order of [start_index]. *)
Theorem sort_by_start_sorts (l : list Span) :
  Permutation l (sort_by_start l) /\ StronglySorted by_start (sort_by_start l).
Proof.
  split; [|apply sort_by_start_sorted].
  induction l as [|x l IH]; simpl; [constructor|].
  eapply perm_trans; [apply perm_skip; exact IH|]. apply insert_by_start_perm.
Qed.

Lemma filter_insert_by_start (k : Z) (x : Span) (l : list Span) :
  StronglySorted by_start l ->
  filter (fun s => Z.eqb (start_index s) k) (insert_by_start x l)
  = filter (fun s => Z.eqb (start_index s) k) (x :: l).
Proof.
  induction 1 as [|y l Hl IH Hy]; [reflexivity|].
  cbn [insert_by_start].
  destruct (Z.leb_spec (start_index x) (start_index y)) as [Hle|Hgt];
    [reflexivity|].
  cbn [filter] in *. rewrite IH.
  destruct (Z.eqb_spec (start_index y) k) as [Hy'|Hy'];
    destruct (Z.eqb_spec (start_index x) k) as [Hx'|Hx']; try reflexivity.
  lia.
Qed.

(** X19 — the sort is stable and leaves a sorted list alone: spans of
    one [start_index] keep the order the recognizer gave them, and a list
    already in ascending order comes back unchanged. *)
Theorem sort_by_start_stable (l : list Span) :
  (forall k, filter (fun s => Z.eqb (start_index s) k) (sort_by_start l)
             = filter (fun s => Z.eqb (start_index s) k) l)
  /\ (StronglySorted by_start l -> sort_by_start l = l).
Proof.
  split.
  - intros k. induction l as [|x l IH]; [reflexivity|].
    cbn [sort_by_start].
    rewrite filter_insert_by_start by apply sort_by_start_sorted.
    cbn [filter]. rewrite IH. reflexivity.
  - induction 1 as [|x l Hl IH Hx]; [reflexivity|].
    cbn [sort_by_start]. rewrite IH.
    destruct l as [|y l]; [reflexivity|].
    cbn [insert_by_start]. inversion Hx as [|? ? Hxy _]; subst.
    unfold by_start in Hxy.
    destruct (Z.leb_spec (start_index x) (start_index y)); [reflexivity | lia].
Qed.

Lemma sort_by_start_stable_witness :
  sort_by_start [span_AB; span_CD] = [span_AB; span_CD].
Proof.
  apply (sort_by_start_stable [span_AB; span_CD]).
  repeat constructor; unfold by_start; simpl; lia.
Defined.

(** *** The loop over the candidates *)

Section Loop.
Context {U : Unicode} {E : Type} (self : Collaborators E).

Lemma for_each_total {A B} (f : A -> result E B) (l : list A) :
  (forall x, In x l -> exists y, f x = Ok y) ->
  exists out, for_each f l = Ok out.
Proof.
  induction l as [|x l IH]; intros H; simpl; [eauto|].
  destruct (H x (or_introl eq_refl)) as [y ->].
  destruct IH as [ys ->]; [intros z Hz; apply H; right; exact Hz|].
  simpl. eauto.
Qed.

Lemma for_each_raise {A B} (f : A -> result E B) (l : list A) (e : E) :
  for_each f l = Raise e -> exists x, In x l /\ f x = Raise e.
Proof.
  induction l as [|x l IH]; simpl; [discriminate|].
  destruct (f x) as [y|e'] eqn:Hx; simpl.
  - destruct (for_each f l) as [ys|e'']; simpl; [discriminate|].
    intros [= ->]. destruct (IH eq_refl) as [z [Hz Hfz]]. eauto.
  - intros [= ->]. eauto.
Qed.

(** What one turn of the loop can do. *)
Lemma resolve_entity_outcome (q : str) (all : list Span) (custom fs fe : str)
    (entity : Span) :
  let x := expand_entity_without_overlap q entity all custom fs fe in
  (x = text entity /\ resolve_entity self q all custom fs fe entity = Ok entity)
  \/ (x <> text entity
      /\ resolve_entity self q all custom fs fe entity
         = (corrected <- correct_entity self (text entity) x
                           (start_index entity) (end_index entity) ;;
            Ok match corrected with Some c => c | None => entity end)).
Proof.
  intros x. unfold resolve_entity. fold x.
  destruct (str_eqb x (text entity)) eqn:Heq.
  - left. split; [apply str_eqb_eq; exact Heq | reflexivity].
  - right. split.
    + intros H. apply str_eqb_eq in H. congruence.
    + destruct (correct_entity self (text entity) x (start_index entity)
                  (end_index entity)) as [[c|]|e]; reflexivity.
Qed.

(** X20 — [process_query] fails only by forwarding a failure of a
    collaborator: a raise is the recognizer's, or the corrector's on a call
    with an expanded text that differs from the original; and when the
    recognizer returns and the corrector never raises, a list is
    returned. *)
Theorem process_query_failures (query custom fs fe : str) (sc ec : bool) :
  (forall e, process_query self query custom fs fe sc ec = Raise e ->
     recognize_entities self (preprocess_query query) = Raise e
     \/ exists original expanded s en,
          expanded <> original
          /\ correct_entity self original expanded s en = Raise e)
  /\ ((exists entities,
         recognize_entities self (preprocess_query query) = Ok entities) ->
      (forall original expanded s en,
         exists r, correct_entity self original expanded s en = Ok r) ->
      exists final, process_query self query custom fs fe sc ec = Ok final).
Proof.
  rewrite process_query_candidates. unfold candidates.
  destruct (recognize_entities self (preprocess_query query)) as [entities|e0];
    cbn [bind].
  - set (cands := match entities with
                  | [] => detect_potential_entities (preprocess_query query) custom sc ec
                  | _ :: _ => sort_by_start entities
                  end).
    replace (match entities with
             | [] => Ok (detect_potential_entities (preprocess_query query) custom sc ec)
             | _ :: _ => Ok (sort_by_start entities)
             end) with (@Ok E _ cands) by (destruct entities; reflexivity).
    cbn [bind]. split.
    + intros e He. right. apply for_each_raise in He.
      destruct He as [entity [_ He]].
      destruct (resolve_entity_outcome (preprocess_query query) cands custom fs fe entity)
        as [[_ Hr]|[Hne Hr]]; rewrite Hr in He; [discriminate|].
      destruct (correct_entity self (text entity) _ _ _) as [r|e'] eqn:Hc;
        [discriminate|].
      injection He as ->. eauto 6.
    + intros _ Hc. apply for_each_total. intros entity _.
      destruct (resolve_entity_outcome (preprocess_query query) cands custom fs fe entity)
        as [[_ Hr]|[_ Hr]]; rewrite Hr; [eauto|].
      destruct (Hc (text entity)
                  (expand_entity_without_overlap (preprocess_query query) entity
                     cands custom fs fe)
                  (start_index entity) (end_index entity)) as [r ->].
      cbn [bind]. eauto.
  - split.
    + intros e [= ->]. left. reflexivity.
    + intros [entities H]. discriminate H.
Qed.

(** X21 — the shape of the final list: as many spans as candidates, in
    the same order; each is its candidate, or what the corrector returned
    when called with the candidate's text, an expanded text that differs
    from it, and the candidate's indices. *)
Theorem process_query_output (query custom fs fe : str) (sc ec : bool)
    (cands final : list Span) :
  candidates self (preprocess_query query) custom sc ec = Ok cands ->
  process_query self query custom fs fe sc ec = Ok final ->
  List.length final = List.length cands
  /\ Forall2 (fun candidate span =>
        span = candidate
        \/ exists expanded,
             expanded <> text candidate
             /\ correct_entity self (text candidate) expanded
                  (start_index candidate) (end_index candidate) = Ok (Some span))
       cands final.
Proof.
  intros Hc Hp. rewrite process_query_candidates, Hc in Hp. cbn [bind] in Hp.
  apply for_each_Forall2 in Hp.
  split; [symmetry; exact (Forall2_length Hp)|].
  eapply Forall2_impl; [|exact Hp]. intros c f Hf. cbv beta in Hf.
  destruct (resolve_entity_outcome (preprocess_query query) cands custom fs fe c)
    as [[_ Hr]|[Hne Hr]]; rewrite Hr in Hf.
  - injection Hf as <-. left. reflexivity.
  - destruct (correct_entity self (text c) _ _ _) as [[r|]|e] eqn:Hcorr;
      cbn [bind] in Hf; try discriminate; injection Hf as <-.
    + right. eauto.
    + left. reflexivity.
Qed.

(** X22 — with a corrector that always declines, the final list is the
    candidate list: the recognizer's entities sorted by [start_index] when
    there are any, the scanner's spans otherwise. *)
Theorem process_query_declining (query custom fs fe : str) (sc ec : bool) :
  (forall original expanded s en,
     correct_entity self original expanded s en = Ok None) ->
  process_query self query custom fs fe sc ec
  = candidates self (preprocess_query query) custom sc ec
  /\ (forall c cs,
        recognize_entities self (preprocess_query query) = Ok (c :: cs) ->
        process_query self query custom fs fe sc ec = Ok (sort_by_start (c :: cs))).
Proof.
  intros Hd.
  assert (Hloop : forall q all l,
            for_each (resolve_entity self q all custom fs fe) l = Ok l).
  { intros q all l. induction l as [|x l IH]; [reflexivity|].
    cbn [for_each]. rewrite IH.
    destruct (resolve_entity_outcome q all custom fs fe x) as [[_ ->]|[_ ->]];
      [reflexivity|].
    rewrite Hd. reflexivity. }
  assert (H : process_query self query custom fs fe sc ec
              = candidates self (preprocess_query query) custom sc ec).
  { rewrite process_query_candidates.
    destruct (candidates self (preprocess_query query) custom sc ec) as [cands|e];
      [cbn [bind]; apply Hloop | reflexivity]. }
  split; [exact H|].
  intros c cs Hr. rewrite H. unfold candidates. rewrite Hr. reflexivity.
Qed.

End Loop.

Lemma process_query_output_witness :
  List.length (detect_potential_entities (py "ab cd") [] false false)
  = List.length (detect_potential_entities (py "ab cd") [] false false)
  /\ Forall2 (fun candidate span =>
        span = candidate
        \/ exists expanded,
             expanded <> text candidate
             /\ correct_entity (shipped unit) (text candidate) expanded
                  (start_index candidate) (end_index candidate) = Ok (Some span))
       (detect_potential_entities (py "ab cd") [] false false)
       (detect_potential_entities (py "ab cd") [] false false).
Proof.
  apply (process_query_output (U:=Excerpt.unicode) (shipped unit)
           (py "AB  cd ") [] [] [] false false).
  - reflexivity.
  - vm_compute. reflexivity.
Defined.

Lemma process_query_declining_witness :
  process_query (U:=Excerpt.unicode) (shipped unit) (py "AB  cd ") [] [] [] false false
  = candidates (shipped unit)
      (preprocess_query (U:=Excerpt.unicode) (py "AB  cd ")) [] false false.
Proof.
  apply (process_query_declining (U:=Excerpt.unicode) (shipped unit)
           (py "AB  cd ") [] [] [] false false).
  reflexivity.
Defined.

Lemma process_query_failures_witness :
  exists final,
    process_query (U:=Excerpt.unicode) (shipped unit) (py "AB  cd ") [] [] [] false false
    = Ok final.
Proof.
  apply (process_query_failures (U:=Excerpt.unicode) (shipped unit)
           (py "AB  cd ") [] [] [] false false).
  - exists []. reflexivity.
  - intros. exists None. reflexivity.
Defined.

(** X23 — the text [expand_entity_without_overlap] returns always
    contains the entity's text, whether the expansion was kept, vetoed, or
    not possible because the text is not in the query. *)
Theorem expand_entity_without_overlap_contains (query : str) (entity : Span)
    (all_entities : list Span) (custom fs fe : str) :
  contains (expand_entity_without_overlap query entity all_entities custom fs fe)
    (text entity) = true.
Proof.
  assert (Hself : contains (text entity) (text entity) = true).
  { apply contains_iff. exists [], []. rewrite app_nil_r. reflexivity. }
  unfold expand_entity_without_overlap.
  match goal with |- contains (if ?b then _ else _) _ = _ => destruct b end;
    [exact Hself|].
  unfold expand_substring.
  destruct (find query (text entity)) as [p|] eqn:Hf.
  - destruct (expand_bounds_spec query (text entity) custom fs fe p Hf)
      as [s [e [Hb [Hs [He Hlen]]]]].
    rewrite Hb.
    rewrite (slice_split query s p (p + List.length (text entity)) e) by lia.
    rewrite (slice_occurrence _ _ _ Hf). apply contains_iff. eauto.
  - unfold expand_bounds. rewrite Hf. exact Hself.
Qed.

(** ** Instances of the statements that have a premise *)

Lemma process_has_no_invisible_witness :
  mem 0x61%N invisible_chars = false
  /\ is_ascii_control 0x61%N = false
  /\ mem 0x61%N space_chars = false.
Proof.
  apply (process_has_no_invisible (U:=Excerpt.unicode)
           ([0xFF21; 0x200B]%N ++ py " Pay")).
  left. reflexivity.
Defined.

Lemma process_is_trimmed_witness :
  isspace 0x61%N = false /\ isspace 0x79%N = false.
Proof.
  destruct (process_is_trimmed (U:=Excerpt.unicode) (py "  A pay ")) as [_ [Hl Hr]].
  split.
  - apply (Hl 0x61%N (py " pay")). reflexivity.
  - apply (Hr (py "a pa") 0x79%N). reflexivity.
Defined.

Lemma detect_continuous_custom_chars_sound_witness :
  py "A123-9" <> []
  /\ forallb (base_chars (py "-")) (py "A123-9") = true
  /\ contains (py "order_A123-9!") (py "A123-9") = true.
Proof.
  apply (detect_continuous_custom_chars_sound (py "order_A123-9!") (py "-") false false).
  right. left. reflexivity.
Defined.

Lemma is_alphanumeric_iff_detect_witness :
  detect_continuous_custom_chars (py "abc1") [] true true = [py "abc1"].
Proof.
  apply (is_alphanumeric_iff_detect (py "abc1")). reflexivity.
Defined.
